(** * dropush-ai-local: batch processor and publishing queue

    A shallow embedding of [src/listing/batch_processor.py],
    [src/listing/queue_manager.py] and the container of
    [src/core/dependencies.py], with the Python built-ins they rely on
    ([range], slices, [list.index], [list.remove], [heapq],
    [asyncio.as_completed], [asyncio.wait_for]).

    Conventions.
    - A Python call that may raise returns [Res A]: [Return a] or [Raise e].
    - Durations and instants are integers, in microseconds (the resolution
      of [datetime]); [timeout_per_item = 5.0] is [5000000].
    - Whatever the program obtains from outside (the GPU library, the
      process pool, the publishers, the clock) is read from an explicit
      record of oracles, keyed by the place of the call, so that two calls
      never have to agree. *)

From Stdlib Require Import ZArith QArith Lia.
From stdpp Require Import base list strings gmap sorting.

Local Open Scope Z_scope.

(** ** Python built-ins *)

Module Py.

Inductive ExnClass :=
| ImportError | TimeoutError | ValueError | IndexError
| AttributeError | RecursionError | RuntimeError | TypeError.

(** An exception: its class and [str(e)]. *)
Record Exn := mkExn { exn_class : ExnClass; exn_msg : string }.

Inductive Res (A : Type) :=
| Return (a : A)
| Raise (e : Exn).
Arguments Return {A} a.
Arguments Raise {A} e.

Definition bind {A B} (m : Res A) (k : A → Res B) : Res B :=
  match m with
  | Return a => k a
  | Raise e => Raise e
  end.

Definition returns {A} (m : Res A) : bool :=
  match m with Return _ => true | Raise _ => false end.

(** [len(l)] *)
Definition len {A} (l : list A) : Z := Z.of_nat (length l).

(** Number of elements of [range(start, stop, step)], [step <> 0]. *)
Definition range_len (start stop step : Z) : Z :=
  if 0 <? step
  then (if start <? stop then (stop - start - 1) / step + 1 else 0)
  else (if stop <? start then (start - stop - 1) / (- step) + 1 else 0).

(** [range(start, stop, step)]; a zero step raises. *)
Definition range (start stop step : Z) : Res (list Z) :=
  if step =? 0
  then Raise (mkExn ValueError "range() arg 3 must not be zero")
  else Return ((λ k : nat, start + Z.of_nat k * step)
                 <$> seq 0 (Z.to_nat (range_len start stop step))).

(** A slice bound, brought into [0 .. n] as Python does. *)
Definition clamp (n i : Z) : Z :=
  if i <? 0 then Z.max 0 (i + n) else Z.min i n.

(** [l[lo:hi]] *)
Definition slice {A} (l : list A) (lo hi : Z) : list A :=
  let lo' := clamp (len l) lo in
  let hi' := clamp (len l) hi in
  take (Z.to_nat (hi' - lo')) (drop (Z.to_nat lo') l).

(** [l[i]] for [i >= 0] *)
Definition getitem {A} (l : list A) (i : nat) : Res A :=
  match l !! i with
  | Some x => Return x
  | None => Raise (mkExn IndexError "list index out of range")
  end.

(** [l.index(x)]: the first position holding a value equal to [x]. *)
Fixpoint index `{EqDecision A} (x : A) (l : list A) : Res nat :=
  match l with
  | [] => Raise (mkExn ValueError "x is not in list")
  | y :: l' =>
      if decide (y = x) then Return 0%nat
      else bind (index x l') (λ i, Return (S i))
  end.

(** [l.remove(x)]: drops the first value equal to [x]. *)
Fixpoint remove `{EqDecision A} (x : A) (l : list A) : Res (list A) :=
  match l with
  | [] => Raise (mkExn ValueError "list.remove(x): x not in list")
  | y :: l' =>
      if decide (y = x) then Return l'
      else bind (remove x l') (λ r, Return (y :: r))
  end.

(** A loop with an accumulator whose body may raise. *)
Fixpoint for_fold {S A} (f : S → A → Res S) (s : S) (l : list A) : Res S :=
  match l with
  | [] => Return s
  | x :: l' => bind (f s x) (λ s', for_fold f s' l')
  end.

(** [[f(i, x) for i, x in enumerate(l, start)]], [f] possibly raising;
    the first raise in list order is the one reported. *)
Fixpoint for_each_from {A B} (f : nat → A → Res B) (start : nat) (l : list A)
  : Res (list B) :=
  match l with
  | [] => Return []
  | x :: l' =>
      bind (f start x) (λ y,
      bind (for_each_from f (S start) l') (λ ys, Return (y :: ys)))
  end.

(** [d.get(key, default)] on a dict of strings *)
Definition dict_get (d : gmap string string) (key dflt : string) : string :=
  default dflt (d !! key).

End Py.

Export Py.

(** Sequencing of calls that may raise. *)
Notation "'let!' x ':=' m 'in' k" := (Py.bind m (λ x, k))
  (at level 10, x name, m at level 100, k at level 200,
   format "'let!'  x  ':='  m  'in'  '/' k").

#[global] Instance ExnClass_eq_dec : EqDecision ExnClass.
Proof. solve_decision. Defined.
#[global] Instance Exn_eq_dec : EqDecision Exn.
Proof. solve_decision. Defined.
#[global] Instance Q_eq_dec : EqDecision Q.
Proof. solve_decision. Defined.

(** ** The batch processor: data *)

Module Batch.

(** A product, [Dict[str, Any]], restricted to string fields. *)
Definition Product := gmap string string.

(** [optimization_params: Optional[Dict[str, Any]]] *)
Definition Params := option (gmap string string).

(** The two dictionaries passed as [metadata]:
    [{'optimization_params': optimization_params}] and
    [{'processed_on': 'GPU', 'batch_index': i}]. *)
Inductive Metadata :=
| MetaParams (optimization_params : Params)
| MetaGpu (batch_index : nat).

(** A value given to a keyword of [OptimizationResult(...)]. *)
Inductive Value :=
| VStr (s : string)
| VStrs (l : list string)
| VFloat (q : Q)
| VDict (m : Metadata).

(** [OptimizationResult], the dataclass that [batch_processor.py] imports
    from [src/listing/ai_optimizer.py]. A dataclass does not check the
    types of its fields. *)
Record OptimizationResult := mkOptimizationResult {
  optimized_title : Value;
  optimized_description : Value;
  keywords : Value;
  sentiment_score : Value;
  estimated_ctr : Value;
  confidence : Value
}.

(** The parameters of the [__init__] that [@dataclass] generates, all of
    them required. *)
Definition OptimizationResult_fields : list string :=
  ["optimized_title"; "optimized_description"; "keywords";
   "sentiment_score"; "estimated_ctr"; "confidence"].

Definition quoted (name : string) : string := "'" +:+ name +:+ "'".

(** How the interpreter lists the parameters left without a value:
    ['a'], ['a' and 'b'], ['a', 'b', and 'c']. *)
Fixpoint and_list (names : list string) : string :=
  match names with
  | [] => ""
  | [a] => "and " +:+ quoted a
  | a :: rest => quoted a +:+ ", " +:+ and_list rest
  end.

Definition format_missing (names : list string) : string :=
  match names with
  | [a] => quoted a
  | [a; b] => quoted a +:+ " and " +:+ quoted b
  | _ => and_list names
  end.

Definition missing_arguments (names : list string) : Exn :=
  mkExn TypeError
    ("OptimizationResult.__init__() missing "
     +:+ nth (length names) ["0"; "1"; "2"; "3"; "4"; "5"; "6"] ""
     +:+ " required positional argument"
     +:+ (if decide (length names = 1%nat) then "" else "s")
     +:+ ": " +:+ format_missing names).

Definition unexpected_keyword (name : string) : Exn :=
  mkExn TypeError
    ("OptimizationResult.__init__() got an unexpected keyword argument "
     +:+ quoted name).

(** [kwargs[name]], the keywords of a call being distinct. *)
Definition keyword (kwargs : list (string * Value)) (name : string)
  : option Value :=
  snd <$> find (λ kv, bool_decide (kv.1 = name)) kwargs.

(** [OptimizationResult(...)] called with the keywords [kwargs]: the first
    keyword that is no parameter is refused, then the parameters left
    without a value. The messages are those of CPython 3.10 to 3.12. *)
Definition new_OptimizationResult (kwargs : list (string * Value))
  : Res OptimizationResult :=
  match find (λ kv, bool_decide (kv.1 ∉ OptimizationResult_fields)) kwargs with
  | Some (name, _) => Raise (unexpected_keyword name)
  | None =>
      match keyword kwargs "optimized_title",
            keyword kwargs "optimized_description",
            keyword kwargs "keywords",
            keyword kwargs "sentiment_score",
            keyword kwargs "estimated_ctr",
            keyword kwargs "confidence" with
      | Some t, Some d, Some k, Some s, Some e, Some c =>
          Return {| optimized_title := t; optimized_description := d;
                    keywords := k; sentiment_score := s;
                    estimated_ctr := e; confidence := c |}
      | _, _, _, _, _, _ =>
          Raise (missing_arguments
                   (filter (λ name, keyword kwargs name = None)
                           OptimizationResult_fields))
      end
  end.

(** A failure entry: [{'error': ..., 'item': ..., 'type': ...}]; the
    timeout entry has no ['type'] key. *)
Record Failure := mkFailure {
  error : string;
  item : Product;
  type : option string
}.

(** What a result list holds:
    [List[Union[OptimizationResult, Dict[str, Any]]]]. *)
Inductive Entry :=
| Opt (r : OptimizationResult)
| Fail (f : Failure).

(** [isinstance(result, OptimizationResult)] *)
Definition is_optimization_result (e : Entry) : bool :=
  match e with Opt _ => true | Fail _ => false end.

Record BatchConfig := mkBatchConfig {
  batch_size : Z;
  max_workers : Z;
  max_concurrent_batches : Z;
  enable_gpu : bool;
  timeout_per_item : Z;
  retry_failed : bool;
  backpressure_threshold : Z
}.

(** [BatchConfig()], on a machine with [cpu_count] processors. *)
Definition default_config (cpu_count : Z) : BatchConfig :=
  {| batch_size := 100;
     max_workers := cpu_count;
     max_concurrent_batches := 4;
     enable_gpu := true;
     timeout_per_item := 5000000;
     retry_failed := true;
     backpressure_threshold := 1000 |}.

Record BatchMetadata := mkBatchMetadata {
  total_items : Z;
  batch_count : Z;
  workers_used : Z;
  gpu_enabled : bool
}.

Record BatchResult := mkBatchResult {
  successful : list OptimizationResult;
  failed : list Entry;
  total_time : Z;
  throughput : Q;
  metadata : BatchMetadata
}.

#[global] Instance Metadata_eq_dec : EqDecision Metadata.
Proof. solve_decision. Defined.
#[global] Instance Value_eq_dec : EqDecision Value.
Proof. solve_decision. Defined.
#[global] Instance OptimizationResult_eq_dec : EqDecision OptimizationResult.
Proof. solve_decision. Defined.
#[global] Instance Failure_eq_dec : EqDecision Failure.
Proof. solve_decision. Defined.
#[global] Instance Entry_eq_dec : EqDecision Entry.
Proof. solve_decision. Defined.

(** *** The outside world *)

(** Where an operation is waited for: on item [index] of chunk [chunk] in
    the first pass, or on failed entry [index] in the retry. *)
Inductive Site :=
| FirstPass (chunk index : nat)
| RetryPass (index : nat).

(** What the three GPU batch calls hand back. *)
Record GpuOutput := mkGpuOutput {
  optimized_titles : list string;
  optimized_descriptions : list string;
  keywords_batch : list (list string)
}.

Record World := mkWorld {
  (** how long after the wait on it starts the operation at a site is
      finished; for the first pass, counted from the start of the
      [as_completed] loop of its chunk *)
  finishes_after : Site → Z;
  (** a failure of the process pool itself, for future [index] of chunk
      [chunk] *)
  executor_failure : nat → nat → option Exn;
  (** importing and running the GPU optimizer on a chunk, at its n-th
      attempt: titles, descriptions, categories to the three outputs *)
  gpu_optimizer :
    nat → nat → list string → list string → list string → Res GpuOutput;
  (** frames left before the interpreter raises [RecursionError] *)
  recursion_limit : nat;
  (** the two readings of [time.time()] *)
  time_start : Z;
  time_end : Z
}.

(** *** [BatchProcessor] *)

(** [_create_batches] *)
Definition _create_batches {T} (cfg : BatchConfig) (items : list T)
  : Res (list (list T)) :=
  let batch_size := batch_size cfg in
  let! starts := range 0 (len items) batch_size in
  Return ((λ i, slice items i (i + batch_size)) <$> starts).

(** [_optimize_single_item] *)
Definition _optimize_single_item (item : Product)
    (optimization_params : Params) : Res OptimizationResult :=
  new_OptimizationResult
    [("title", VStr ("Optimized: " +:+ dict_get item "title" "Unknown"));
     ("description",
      VStr ("Optimized description for "
            +:+ dict_get item "title" "Unknown"));
     ("keywords", VStrs ["keyword1"; "keyword2"; "keyword3"]);
     ("sentiment_score", VFloat (85 # 100));
     ("metadata", VDict (MetaParams optimization_params))].

(** [_process_item_cpu]: the body run in a pool worker. *)
Definition _process_item_cpu (item : Product) (optimization_params : Params)
  : Entry :=
  match _optimize_single_item item optimization_params with
  | Return result => Opt result
  | Raise e =>
      Fail {| error := exn_msg e; item := item;
              type := Some "processing_error" |}
  end.

(** [asyncio.wait_for(op, timeout)] on an operation finished after
    [elapsed]. *)
Definition wait_for {A} (timeout elapsed : Z) (op : Res A) : Res A :=
  if elapsed <? timeout then op else Raise (mkExn TimeoutError "").

(** The objects of the CPU path: the futures of [run_in_executor], one per
    item, and the coroutines [as_completed] hands out, one per
    iteration. The latter are new objects, none is a member of
    [futures]. *)
Inductive Awaitable :=
| ExecutorFuture (index : nat)
| WaitForOne (iteration : nat).

#[global] Instance Awaitable_eq_dec : EqDecision Awaitable.
Proof. solve_decision. Defined.

(** [asyncio.as_completed(futures)], iterated with a plain [for]. *)
Definition as_completed (futures : list Awaitable) : list Awaitable :=
  WaitForOne <$> seq 0 (length futures).

(** The result of future [i] of chunk [c]. *)
Definition future_result (w : World) (c : nat) (batch : list Product)
    (optimization_params : Params) (i : nat) : Res Entry :=
  match executor_failure w c i with
  | Some e => Raise e
  | None =>
      let! item := getitem batch i in
      Return (_process_item_cpu item optimization_params)
  end.

(** Among the futures not delivered yet, the one finished first (the
    lower position wins a tie). *)
Fixpoint earliest (finish : nat → Z) (pending : list nat) : option nat :=
  match pending with
  | [] => None
  | i :: rest =>
      match earliest finish rest with
      | Some j => if finish j <? finish i then Some j else Some i
      | None => Some i
      end
  end.

(** One [await asyncio.wait_for(future, timeout)] of the loop, started at
    [now]: what it gives, when it ends, and the futures still pending. *)
Definition await_next (w : World) (c : nat) (batch : list Product)
    (optimization_params : Params) (timeout now : Z) (pending : list nat)
  : Res Entry * Z * list nat :=
  let finish := λ i, finishes_after w (FirstPass c i) in
  match earliest finish pending with
  | Some i =>
      if finish i <? now + timeout
      then (future_result w c batch optimization_params i,
            Z.max now (finish i),
            filter (λ j, j ≠ i) pending)
      else (Raise (mkExn TimeoutError ""), now + timeout, pending)
  | None => (Raise (mkExn TimeoutError ""), now + timeout, pending)
  end.

(** The loop [for future in asyncio.as_completed(futures)] of
    [_process_single_batch], with its two handlers. *)
Fixpoint collect (cfg : BatchConfig) (w : World) (c : nat)
    (batch : list Product) (optimization_params : Params)
    (futures : list Awaitable) (waits : list Awaitable)
    (now : Z) (pending : list nat) (results : list Entry)
  : Res (list Entry) :=
  match waits with
  | [] => Return results
  | future :: waits' =>
      let '(r, now', pending') :=
        await_next w c batch optimization_params
                   (timeout_per_item cfg) now pending in
      match r with
      | Return result =>
          collect cfg w c batch optimization_params futures waits'
                  now' pending' (results ++ [result])
      | Raise e =>
          let! i := index future futures in
          let! item := getitem batch i in
          let entry :=
            if decide (exn_class e = TimeoutError)
            then Fail {| error := "Timeout"; item := item; type := None |}
            else Fail {| error := exn_msg e; item := item; type := None |} in
          collect cfg w c batch optimization_params futures waits'
                  now' pending' (results ++ [entry])
      end
  end.

(** The CPU branch of [_process_single_batch]. The backpressure semaphore
    is not represented: with a positive [backpressure_threshold] it only
    delays the submissions (with 0 the first [acquire] never ends). *)
Definition process_cpu (cfg : BatchConfig) (w : World) (c : nat)
    (batch : list Product) (optimization_params : Params)
  : Res (list Entry) :=
  let futures := ExecutorFuture <$> seq 0 (length batch) in
  collect cfg w c batch optimization_params futures (as_completed futures)
          0 (seq 0 (length batch)) [].

(** One entry of the GPU path: [OptimizationResult(title=optimized_titles[i], ...)]
    under its [try]; the three subscripts are evaluated before the call. *)
Definition gpu_entry (out : GpuOutput) (i : nat) (item : Product) : Entry :=
  match (let! t := getitem (optimized_titles out) i in
         let! d := getitem (optimized_descriptions out) i in
         let! k := getitem (keywords_batch out) i in
         new_OptimizationResult
           [("title", VStr t); ("description", VStr d);
            ("keywords", VStrs k); ("sentiment_score", VFloat 0);
            ("metadata", VDict (MetaGpu i))]) with
  | Return result => Opt result
  | Raise e =>
      Fail {| error := exn_msg e; item := item;
              type := Some "gpu_processing_error" |}
  end.

(** [_process_single_batch] and [_process_batch_gpu]; they call each
    other, [depth] is the number of frames left and [attempt] counts the
    entries into the GPU path for this chunk. *)
Fixpoint _process_single_batch (depth : nat) (cfg : BatchConfig) (w : World)
    (c attempt : nat) (batch : list Product) (optimization_params : Params)
  {struct depth} : Res (list Entry) :=
  match depth with
  | O => Raise (mkExn RecursionError "maximum recursion depth exceeded")
  | S depth' =>
      if enable_gpu cfg && (20 <? len batch)
      then _process_batch_gpu depth' cfg w c attempt batch optimization_params
      else process_cpu cfg w c batch optimization_params
  end
with _process_batch_gpu (depth : nat) (cfg : BatchConfig) (w : World)
    (c attempt : nat) (batch : list Product) (optimization_params : Params)
  {struct depth} : Res (list Entry) :=
  match depth with
  | O => Raise (mkExn RecursionError "maximum recursion depth exceeded")
  | S depth' =>
      let titles := (λ item, dict_get item "title" "") <$> batch in
      let descriptions := (λ item, dict_get item "description" "") <$> batch in
      let categories := (λ item, dict_get item "category" "General") <$> batch in
      match gpu_optimizer w c attempt titles descriptions categories with
      | Return out => Return (imap (gpu_entry out) batch)
      | Raise e =>
          (* [except ImportError] and [except Exception] do the same *)
          _process_single_batch depth' cfg w c (S attempt) batch
                                optimization_params
      end
  end.

(** [_process_batches_concurrent]: [asyncio.gather] keeps the order of the
    chunks and lets an exception of a chunk through. The semaphore is not
    represented: with a positive [max_concurrent_batches] it only bounds
    how many chunks run at once (with 0 no chunk ever starts, and
    [asyncio.Semaphore] refuses a negative value). *)
Definition _process_batches_concurrent (cfg : BatchConfig) (w : World)
    (batches : list (list Product)) (optimization_params : Params)
  : Res (list (list Entry)) :=
  for_each_from
    (λ c batch, _process_single_batch (recursion_limit w) cfg w c 0 batch
                                      optimization_params)
    0 batches.

(** The two lists and the two counters of [process_batch]. *)
Record Tally := mkTally {
  t_successful : list OptimizationResult;
  t_failed : list Entry;
  _processed_count : Z;
  _failed_count : Z
}.

(** The body of the aggregation loop. *)
Definition tally_one (t : Tally) (result : Entry) : Tally :=
  match result with
  | Opt r =>
      {| t_successful := t_successful t ++ [r];
         t_failed := t_failed t;
         _processed_count := _processed_count t + 1;
         _failed_count := _failed_count t |}
  | Fail _ =>
      {| t_successful := t_successful t;
         t_failed := t_failed t ++ [result];
         _processed_count := _processed_count t;
         _failed_count := _failed_count t + 1 |}
  end.

Definition aggregate (results : list (list Entry)) : Tally :=
  fold_left (λ t batch_results, fold_left tally_one batch_results t)
            results (mkTally [] [] 0 0).

(** [_retry_failed_items] *)
Definition _retry_failed_items (cfg : BatchConfig) (w : World)
    (failed_items : list Entry) (optimization_params : Params)
  : Res (list Entry) :=
  for_each_from
    (λ n entry,
       let! original_item :=
         match entry with
         | Fail f => Return (item f)
         | Opt _ =>
             Raise (mkExn AttributeError
                      "'OptimizationResult' object has no attribute 'get'")
         end in
       match wait_for (timeout_per_item cfg * 2)
                      (finishes_after w (RetryPass n))
                      (_optimize_single_item original_item
                                             optimization_params) with
       | Return result => Return (Opt result)
       | Raise e =>
           Return (Fail {| error := "Retry failed: " +:+ exn_msg e;
                         item := original_item;
                         type := Some "retry_failed" |})
       end)
    0 failed_items.

(** The body of the loop over [retry_results]. *)
Definition merge_retry (t : Tally) (result : Entry) : Res Tally :=
  match result with
  | Opt r =>
      let successful := t_successful t ++ [r] in
      let! failed := remove result (t_failed t) in
      Return {| t_successful := successful;
              t_failed := failed;
              _processed_count := _processed_count t + 1;
              _failed_count := _failed_count t - 1 |}
  | Fail _ => Return t
  end.

Definition is_nonempty {A} (l : list A) : bool :=
  match l with [] => false | _ => true end.

(** *** [self.metrics] *)

(** What [__init__] leaves in [self.metrics] (line 74): the value of the
    call [container.resolve('metrics')]. [DIContainer.resolve] is declared
    [async def] and the call is not awaited, so that the value is the
    coroutine object of the call, whatever the container holds; the body
    of [resolve] has not run. *)
Inductive Object := Coroutine (qualname : string).

Definition metrics : Object := Coroutine "DIContainer.resolve".

(** [o.name] for a name that objects of the type of [o] do not have; a
    coroutine object has [send], [throw], [close] and the [cr_...]
    attributes. *)
Definition no_attribute (o : Object) (name : string) : Exn :=
  match o with
  | Coroutine _ =>
      mkExn AttributeError
        ("'coroutine' object has no attribute " +:+ quoted name)
  end.

(** [await self.metrics.gauge(name, value)] and
    [await self.metrics.increment(name, value)]: the attribute is looked
    up before anything is called, and [self.metrics] does not have it. *)
Definition metrics_gauge (name : string) (value : Q) : Res () :=
  Raise (no_attribute metrics "gauge").

Definition metrics_increment (name : string) (value : Z) : Res () :=
  Raise (no_attribute metrics "increment").

(** [process_batch] as far as its two lists and its two counters: the
    chunks, the first pass, the aggregation and the retry (lines
    102-143). *)
Definition process_batch_tally (cfg : BatchConfig) (w : World)
    (products : list Product) (optimization_params : Params)
  : Res (list (list Product) * Tally) :=
  let! batches := _create_batches cfg products in
  let! results := _process_batches_concurrent cfg w batches optimization_params in
  let t := aggregate results in
  let! t :=
      (if retry_failed cfg && is_nonempty (t_failed t)
       then let! retry_results :=
              _retry_failed_items cfg w (t_failed t) optimization_params in
            for_fold merge_retry t retry_results
       else Return t) in
  Return (batches, t).

(** [process_batch]: from there, the figures, the three updates of the
    metrics and the [BatchResult] (lines 145-172). *)
Definition process_batch (cfg : BatchConfig) (w : World)
    (products : list Product) (optimization_params : Params)
  : Res BatchResult :=
  let! bt := process_batch_tally cfg w products optimization_params in
  let batches := bt.1 in
  let t := bt.2 in
  let total_time := time_end w - time_start w in
  let throughput :=
    if 0 <? total_time
    then Qmake (_processed_count t * 1000000) (Z.to_pos total_time)
    else 0%Q in
  let! _ := metrics_gauge "batch.throughput" throughput in
  let! _ := metrics_increment "batch.processed" (_processed_count t) in
  let! _ := metrics_increment "batch.failed" (_failed_count t) in
  Return {| successful := t_successful t;
          failed := t_failed t;
          total_time := total_time;
          throughput := throughput;
          metadata := {| total_items := len products;
                         batch_count := len batches;
                         workers_used := max_workers cfg;
                         gpu_enabled := enable_gpu cfg |} |}.

(** What a consumer of [process_stream] sees: the values yielded, then
    the end of the stream or an exception; [flushes] records each call of
    [process_batch] made on the way, with its window. *)
Record StreamRun := mkStreamRun {
  yielded : list OptimizationResult;
  flushes : list (list Product * Res BatchResult);
  stream_error : option Exn
}.

(** One flush: [process_batch] on the window, then its successes are
    yielded. The n-th flush meets the world [worlds n]. *)
Definition flush (cfg : BatchConfig) (worlds : nat → World)
    (optimization_params : Params) (window : list Product) (run : StreamRun)
  : StreamRun :=
  let batch_result :=
    process_batch cfg (worlds (length (flushes run))) window
                  optimization_params in
  {| yielded :=
       match batch_result with
       | Return b => yielded run ++ successful b
       | Raise _ => yielded run
       end;
     flushes := flushes run ++ [(window, batch_result)];
     stream_error :=
       match batch_result with
       | Return _ => None
       | Raise e => Some e
       end |}.

(** The [async for] loop of [process_stream] and the flush after it. *)
Fixpoint stream_loop (cfg : BatchConfig) (worlds : nat → World)
    (optimization_params : Params) (item_generator : list Product)
    (window : list Product) (run : StreamRun) : StreamRun :=
  match item_generator with
  | [] =>
      if is_nonempty window
      then flush cfg worlds optimization_params window run
      else run
  | item :: rest =>
      let window := window ++ [item] in
      if len window >=? batch_size cfg
      then
        let run' := flush cfg worlds optimization_params window run in
        match stream_error run' with
        | Some _ => run'
        | None => stream_loop cfg worlds optimization_params rest [] run'
        end
      else stream_loop cfg worlds optimization_params rest window run
  end.

(** [process_stream] on a finite source. *)
Definition process_stream (cfg : BatchConfig) (worlds : nat → World)
    (item_generator : list Product) (optimization_params : Params)
  : StreamRun :=
  stream_loop cfg worlds optimization_params item_generator []
              (mkStreamRun [] [] None).

End Batch.

(** ** [heapq], as in CPython's [Lib/heapq.py] *)

Module Heapq.

Section heapq.
Context {A : Type}.
(** Python's [a < b] on the items of the heap. *)
Variable lt : A → A → bool.

(** [heap[i] < heap[j]], both positions in range. *)
Definition lt_at (heap : list A) (i j : nat) : bool :=
  match heap !! i, heap !! j with
  | Some a, Some b => lt a b
  | _, _ => false
  end.

(** The [while pos > startpos] loop of [_siftdown] followed by
    [heap[pos] = newitem]; [pos] decreases at each turn, so [pos] turns
    are enough. *)
Fixpoint siftdown_loop (turns : nat) (heap : list A) (newitem : A)
    (startpos pos : nat) : list A :=
  match turns with
  | O => <[pos := newitem]> heap
  | S turns' =>
      if decide (startpos < pos)%nat then
        let parentpos := Nat.div2 (pos - 1) in      (* (pos - 1) >> 1 *)
        match heap !! parentpos with
        | Some parent =>
            if lt newitem parent
            then siftdown_loop turns' (<[pos := parent]> heap) newitem
                               startpos parentpos
            else <[pos := newitem]> heap
        | None => <[pos := newitem]> heap
        end
      else <[pos := newitem]> heap
  end.

(** [_siftdown(heap, startpos, pos)]; [pos] is in range at every call
    the module makes. *)
Definition _siftdown (heap : list A) (startpos pos : nat) : list A :=
  match heap !! pos with
  | Some newitem => siftdown_loop pos heap newitem startpos pos
  | None => heap
  end.

(** The [while childpos < endpos] loop of [_siftup]: the smaller child
    moves up until a leaf is reached; gives the heap and that leaf. *)
Fixpoint siftup_loop (turns : nat) (heap : list A) (pos : nat)
  : list A * nat :=
  match turns with
  | O => (heap, pos)
  | S turns' =>
      let endpos := length heap in
      let childpos := (2 * pos + 1)%nat in
      if decide (childpos < endpos)%nat then
        let rightpos := (childpos + 1)%nat in
        let childpos :=
          if bool_decide (rightpos < endpos)%nat
             && negb (lt_at heap childpos rightpos)
          then rightpos else childpos in
        match heap !! childpos with
        | Some child => siftup_loop turns' (<[pos := child]> heap) childpos
        | None => (heap, pos)
        end
      else (heap, pos)
  end.

(** [_siftup(heap, pos)] *)
Definition _siftup (heap : list A) (pos : nat) : list A :=
  match heap !! pos with
  | Some newitem =>
      let '(heap', pos') := siftup_loop (length heap) heap pos in
      _siftdown (<[pos' := newitem]> heap') pos pos'
  | None => heap
  end.

(** [heappush(heap, item)] *)
Definition heappush (heap : list A) (item : A) : list A :=
  _siftdown (heap ++ [item]) 0 (length heap).

(** [heappop(heap)]: the item popped and the heap left. *)
Definition heappop (heap : list A) : Res (A * list A) :=
  match last heap with
  | None => Raise (mkExn IndexError "pop from empty list")
  | Some lastelt =>
      let heap' := take (length heap - 1) heap in
      match heap' with
      | returnitem :: _ =>
          Return (returnitem, _siftup (<[0%nat := lastelt]> heap') 0)
      | [] => Return (lastelt, heap')
      end
  end.

(** The invariant of the module: no item is smaller than its parent. *)
Definition is_heap (heap : list A) : Prop :=
  ∀ i x y, (0 < i)%nat → heap !! Nat.div2 (i - 1) = Some x →
           heap !! i = Some y → lt y x = false.

End heapq.

End Heapq.

(** ** The publishing queue *)

Module Queue.

Import Heapq.

Inductive Priority := LOW | NORMAL | HIGH | URGENT.

(** [priority.value] *)
Definition value (p : Priority) : Z :=
  match p with LOW => 3 | NORMAL => 2 | HIGH => 1 | URGENT => 0 end.

Inductive PublishStatus := PENDING | PROCESSING | PUBLISHED | FAILED | SCHEDULED.

Record PublishResult := mkPublishResult {
  listing_id : string;
  pr_marketplace : string;
  status : PublishStatus;
  url : option string;
  pr_error : option string;
  published_at : option Z
}.

(** A listing, [Dict[str, Any]], restricted to string fields. *)
Definition Listing := gmap string string.

(** [QueueItem]; [oid] is the identity of the object, [id(item)]. The
    fields other than [priority] are declared [compare=False]. *)
Record QueueItem := mkQueueItem {
  oid : nat;
  priority : Z;
  scheduled_at : Z;
  listing : Listing;
  marketplace : string;
  retries : Z
}.

(** [__lt__] of the dataclass, generated by [order=True]. *)
Definition item_lt (a b : QueueItem) : bool := priority a <? priority b.

(** [timedelta(minutes=n)], in microseconds *)
Definition minutes (n : Z) : Z := n * 60000000.

(** A task identifier, [f"{item.marketplace}_{id(item)}"]. *)
Definition TaskId : Type := string * nat.

(** Where a [_process_queue] task stands between two of its steps. *)
Inductive Pc :=
| Created                 (* the task exists, its body has not started *)
| OuterTest               (* at [while self.queue or self.active_tasks] *)
| InnerTest (now : Z)     (* at the inner [while], with the [now] it read *)
| Finished.

(** The object and what surrounds it: the clock, the identities handed
    out, the [_process_queue] tasks alive, and two records kept for the
    statements: the items handed to a publish task with the time it was
    done, and what each [_publish_item] returned. *)
Record PublishingQueue := mkPublishingQueue {
  queue : list QueueItem;
  max_concurrent : Z;
  active_tasks : gmap TaskId QueueItem;
  results : gmap nat PublishResult;
  _running : bool;
  _publishers : gmap string nat;
  clock : Z;
  next_id : nat;
  loops : list Pc;
  dispatched : list (QueueItem * Z);
  returned : list (nat * PublishResult)
}.

(** [PublishingQueue(max_concurrent)] *)
Definition init (max_concurrent : Z) (clock : Z) : PublishingQueue :=
  {| queue := []; max_concurrent := max_concurrent; active_tasks := ∅;
     results := ∅; _running := false; _publishers := ∅;
     clock := clock; next_id := 0; loops := [];
     dispatched := []; returned := [] |}.

Definition set_queue (q : list QueueItem) (s : PublishingQueue) :=
  {| queue := q; max_concurrent := max_concurrent s;
     active_tasks := active_tasks s; results := results s;
     _running := _running s; _publishers := _publishers s;
     clock := clock s; next_id := next_id s; loops := loops s;
     dispatched := dispatched s; returned := returned s |}.

Definition set_running (b : bool) (s : PublishingQueue) :=
  {| queue := queue s; max_concurrent := max_concurrent s;
     active_tasks := active_tasks s; results := results s;
     _running := b; _publishers := _publishers s;
     clock := clock s; next_id := next_id s; loops := loops s;
     dispatched := dispatched s; returned := returned s |}.

Definition set_loops (l : list Pc) (s : PublishingQueue) :=
  {| queue := queue s; max_concurrent := max_concurrent s;
     active_tasks := active_tasks s; results := results s;
     _running := _running s; _publishers := _publishers s;
     clock := clock s; next_id := next_id s; loops := l;
     dispatched := dispatched s; returned := returned s |}.

(** [register_publisher] *)
Definition register_publisher (marketplace : string) (publisher : nat)
    (s : PublishingQueue) : PublishingQueue :=
  {| queue := queue s; max_concurrent := max_concurrent s;
     active_tasks := active_tasks s; results := results s;
     _running := _running s;
     _publishers := <[marketplace := publisher]> (_publishers s);
     clock := clock s; next_id := next_id s; loops := loops s;
     dispatched := dispatched s; returned := returned s |}.

(** [add_to_queue]; gives the new state (the queue id it returns is not
    used by the object). *)
Definition add_to_queue (listing : Listing) (marketplace : string)
    (priority : Priority) (scheduled_at : option Z) (s : PublishingQueue)
  : PublishingQueue :=
  let item :=
    {| oid := next_id s;
       priority := value priority;
       scheduled_at := default (clock s) scheduled_at;
       listing := listing;
       marketplace := marketplace;
       retries := 0 |} in
  {| queue := heappush item_lt (queue s) item;
     max_concurrent := max_concurrent s;
     active_tasks := active_tasks s; results := results s;
     _running := _running s; _publishers := _publishers s;
     clock := clock s; next_id := S (next_id s);
     loops := if _running s then loops s else loops s ++ [Created];
     dispatched := dispatched s; returned := returned s |}.

(** [_get_publisher] *)
Definition _get_publisher (s : PublishingQueue) (marketplace : string)
  : option nat :=
  _publishers s !! marketplace.

(** [_publish_item], from the moment [publisher.publish] has given
    [outcome]: the result returned and the state left. *)
Definition _publish_item (item : QueueItem) (outcome : Res PublishResult)
    (s : PublishingQueue) : PublishResult * PublishingQueue :=
  match _get_publisher s (marketplace item) with
  | None =>
      ({| listing_id := ""; pr_marketplace := marketplace item;
          status := FAILED; url := None;
          pr_error := Some ("No publisher registered for "
                            +:+ marketplace item);
          published_at := None |}, s)
  | Some publisher =>
      match outcome with
      | Return result =>
          (result,
           {| queue := queue s; max_concurrent := max_concurrent s;
              active_tasks := active_tasks s;
              results := <[oid item := result]> (results s);
              _running := _running s; _publishers := _publishers s;
              clock := clock s; next_id := next_id s; loops := loops s;
              dispatched := dispatched s; returned := returned s |})
      | Raise e =>
          let s' :=
            if retries item <? 3 then
              let retries' := retries item + 1 in
              let item' :=
                {| oid := oid item; priority := priority item;
                   scheduled_at := clock s + minutes (5 * retries');
                   listing := listing item;
                   marketplace := marketplace item;
                   retries := retries' |} in
              set_queue (heappush item_lt (queue s) item') s
            else s in
          ({| listing_id := ""; pr_marketplace := marketplace item;
              status := FAILED; url := None;
              pr_error := Some (exn_msg e);
              published_at := None |}, s')
      end
  end.

(** A publish task comes to its end: [_publish_item] returns and the
    done-callback takes the task out of [active_tasks]. *)
Definition task_done (tid : TaskId) (outcome : Res PublishResult)
    (s : PublishingQueue) : PublishingQueue :=
  match active_tasks s !! tid with
  | None => s
  | Some item =>
      let '(result, s') := _publish_item item outcome s in
      {| queue := queue s'; max_concurrent := max_concurrent s';
         active_tasks := delete tid (active_tasks s');
         results := results s';
         _running := _running s'; _publishers := _publishers s';
         clock := clock s'; next_id := next_id s'; loops := loops s';
         dispatched := dispatched s';
         returned := returned s' ++ [(oid item, result)] |}
  end.

(** The branch of the inner loop that starts a task: [heappop], then
    [create_task] and the entry in [active_tasks]. *)
Definition dispatch (s : PublishingQueue) : PublishingQueue :=
  match heappop item_lt (queue s) with
  | Return (item, queue') =>
      {| queue := queue'; max_concurrent := max_concurrent s;
         active_tasks :=
           <[(marketplace item, oid item) := item]> (active_tasks s);
         results := results s;
         _running := _running s; _publishers := _publishers s;
         clock := clock s; next_id := next_id s; loops := loops s;
         dispatched := dispatched s ++ [(item, clock s)];
         returned := returned s |}
  | Raise _ => s
  end.

(** One step of a [_process_queue] task standing at [pc]: the state left
    and where the task stands next. A step ends at the latest at the next
    [await]. *)
Definition loop_step (pc : Pc) (s : PublishingQueue) : PublishingQueue * Pc :=
  match pc with
  | Created => (set_running true s, OuterTest)
  | OuterTest =>
      if Batch.is_nonempty (queue s)
         || negb (bool_decide (active_tasks s = ∅))
      then (s, InnerTest (clock s))
      else (set_running false s, Finished)
  | InnerTest now =>
      match queue s with
      | head :: _ =>
          if Z.of_nat (size (active_tasks s)) <? max_concurrent s then
            if scheduled_at head <=? now
            then (dispatch s, InnerTest now)
            else (s, InnerTest now)      (* await asyncio.sleep(...) *)
          else (s, OuterTest)            (* await asyncio.sleep(0.1) *)
      | [] => (s, OuterTest)             (* await asyncio.sleep(0.1) *)
      end
  | Finished => (s, Finished)
  end.

(** What can happen to the object, one step at a time. *)
Inductive Event :=
| EvRegister (marketplace : string) (publisher : nat)
| EvAdd (listing : Listing) (marketplace : string) (priority : Priority)
        (scheduled_at : option Z)
| EvLoop (k : nat)                       (* the k-th loop task advances *)
| EvTaskDone (tid : TaskId) (outcome : Res PublishResult)
| EvTick (elapsed : N)                   (* time passes *)
| EvClear                                (* clear_queue *)
| EvPause                                (* pause *)
| EvResume.                              (* resume *)

Definition step (s : PublishingQueue) (ev : Event) : PublishingQueue :=
  match ev with
  | EvRegister marketplace publisher =>
      register_publisher marketplace publisher s
  | EvAdd listing marketplace priority scheduled_at =>
      add_to_queue listing marketplace priority scheduled_at s
  | EvLoop k =>
      match loops s !! k with
      | Some pc =>
          let '(s', pc') := loop_step pc s in
          set_loops (<[k := pc']> (loops s')) s'
      | None => s
      end
  | EvTaskDone tid outcome => task_done tid outcome s
  | EvTick elapsed =>
      {| queue := queue s; max_concurrent := max_concurrent s;
         active_tasks := active_tasks s; results := results s;
         _running := _running s; _publishers := _publishers s;
         clock := clock s + Z.of_N elapsed;
         next_id := next_id s; loops := loops s;
         dispatched := dispatched s; returned := returned s |}
  | EvClear => set_queue [] s
  | EvPause => set_running false s
  | EvResume =>
      if negb (_running s) && Batch.is_nonempty (queue s)
      then set_loops (loops s ++ [Created]) s
      else s
  end.

(** The state after a sequence of events. *)
Definition run (s : PublishingQueue) (evs : list Event) : PublishingQueue :=
  fold_left step evs s.

End Queue.

(** ** The container of services, [src/core/dependencies.py] *)

Module Container.

(** A factory is a number, the identity of the callable; a service is an
    [option nat], the identity of the object or Python's [None].

    What calling a factory gives: [call factory n] is the outcome of the
    call of [factory] made when [n] factory calls have gone before. A
    factory is taken not to call the container itself. *)
Definition Calls := nat → nat → Res (option nat).

(** [DIContainer]: the two dictionaries its methods use, and a record
    kept for the statements, the factories called so far. [_services] is
    never touched after [__init__], and [_is_started] only by [start] and
    [stop]. *)
Record DIContainer := mkDIContainer {
  _factories : gmap string nat;
  _singletons : gmap string (option nat);
  called : list nat
}.

(** [DIContainer()] *)
Definition new : DIContainer :=
  {| _factories := ∅; _singletons := ∅; called := [] |}.

(** [register] *)
Definition register (name : string) (factory : nat) (singleton : bool)
    (c : DIContainer) : DIContainer :=
  {| _factories := <[name := factory]> (_factories c);
     _singletons :=
       if singleton then <[name := None]> (_singletons c)
       else _singletons c;
     called := called c |}.

(** [name in self._singletons and self._singletons[name] is not None] *)
Definition created (c : DIContainer) (name : string) : option nat :=
  match _singletons c !! name with
  | Some (Some instance) => Some instance
  | _ => None
  end.

Definition not_registered (name : string) : Exn :=
  mkExn ValueError ("Service '" +:+ name +:+ "' not registered").

(** The body of [resolve]: what it returns or raises, and the container
    it leaves. *)
Definition resolve (call : Calls) (name : string) (c : DIContainer)
  : Res (option nat) * DIContainer :=
  match created c name with
  | Some instance => (Return (Some instance), c)
  | None =>
      match _factories c !! name with
      | None => (Raise (not_registered name), c)
      | Some factory =>
          let c' := {| _factories := _factories c;
                       _singletons := _singletons c;
                       called := called c ++ [factory] |} in
          match call factory (length (called c)) with
          | Return instance =>
              (Return instance,
               if bool_decide (is_Some (_singletons c !! name))
               then {| _factories := _factories c;
                       _singletons := <[name := instance]> (_singletons c);
                       called := called c ++ [factory] |}
               else c')
          | Raise e => (Raise e, c')
          end
      end
  end.

(** [get_service] *)
Definition get_service (call : Calls) (name : string) (c : DIContainer)
  : Res (option nat) * DIContainer :=
  match created c name with
  | Some instance => (Return (Some instance), c)
  | None =>
      match _factories c !! name with
      | None => (Raise (not_registered name), c)
      | Some factory =>
          (call factory (length (called c)),
           {| _factories := _factories c;
              _singletons := _singletons c;
              called := called c ++ [factory] |})
      end
  end.

(** What a client can do with a container. *)
Inductive Op :=
| Register (name : string) (factory : nat) (singleton : bool)
| Resolve (name : string)
| GetService (name : string).

Definition exec (call : Calls) (c : DIContainer) (op : Op) : DIContainer :=
  match op with
  | Register name factory singleton => register name factory singleton c
  | Resolve name => (resolve call name c).2
  | GetService name => (get_service call name c).2
  end.

Definition run_ops (call : Calls) (c : DIContainer) (ops : list Op)
  : DIContainer :=
  fold_left (exec call) ops c.

End Container.

(** ** Sample inputs *)

Module BatchExamples.

Import Batch.

Definition product (name : string) : Product := {[ "title" := name ]}.

(** No GPU library is installed. *)
Definition no_gpu : nat → nat → list string → list string → list string
                    → Res GpuOutput :=
  λ _ _ _ _ _, Raise (mkExn ImportError "No module named 'torch'").

(** The pool works and every operation is done after one millisecond. *)
Definition calm : World :=
  {| finishes_after := λ _, 1000;
     executor_failure := λ _ _, None;
     gpu_optimizer := no_gpu;
     recursion_limit := 1000;
     time_start := 0;
     time_end := 2000000 |}.

(** As [calm], but item 0 of chunk 0 needs six seconds. *)
Definition slow : World :=
  {| finishes_after := λ s,
       match s with FirstPass 0 0 => 6000000 | _ => 1000 end;
     executor_failure := λ _ _, None;
     gpu_optimizer := no_gpu;
     recursion_limit := 1000;
     time_start := 0;
     time_end := 2000000 |}.

(** [BatchConfig(enable_gpu=False)] on four processors. *)
Definition cpu_config : BatchConfig :=
  {| batch_size := 100; max_workers := 4; max_concurrent_batches := 4;
     enable_gpu := false; timeout_per_item := 5000000;
     retry_failed := true; backpressure_threshold := 1000 |}.

(** [BatchConfig(batch_size=2, enable_gpu=False)] *)
Definition small_config : BatchConfig :=
  {| batch_size := 2; max_workers := 4; max_concurrent_batches := 4;
     enable_gpu := false; timeout_per_item := 5000000;
     retry_failed := true; backpressure_threshold := 1000 |}.

Definition three_products : list Product :=
  [product "lamp"; product "chair"; product "desk"].



Definition lamps (n : nat) : list Product := replicate n (product "lamp").


End BatchExamples.

(** ** Notions used in the statements *)

Module BatchSpec.

Import Batch.

(** [m] successive pieces of [b] values. *)
Definition pieces {T} (b m : nat) (items : list T) : list (list T) :=
  (λ k : nat, take b (drop (k * b) items)) <$> seq 0 m.

(** The number of chunks of [n] values by [b]: [ceil(n / b)]. *)
Definition chunk_count (n b : Z) : nat := Z.to_nat ((n + b - 1) / b).

(** The number of entries a tally holds. *)
Definition entries (t : Tally) : nat :=
  (length (t_successful t) + length (t_failed t))%nat.

(** An entry a pool worker returns: a result, or the failure entry of
    [_process_item_cpu]. *)
Definition from_worker (e : Entry) : Prop :=
  match e with
  | Opt _ => True
  | Fail f => type f = Some "processing_error"
  end.

(** An entry made by the GPU path: the failure entry of its inner
    handler, the call [OptimizationResult(title=..., ...)] giving no
    result. *)
Definition from_gpu (e : Entry) : Prop :=
  match e with
  | Opt r => False
  | Fail f => type f = Some "gpu_processing_error"
  end.

Definition is_failure (e : Entry) : Prop :=
  is_optimization_result e = false.

(** The two semaphores, [asyncio.Semaphore(backpressure_threshold)] of
    [__init__] and [asyncio.Semaphore(max_concurrent_batches)] of
    [_process_batches_concurrent], are built and let work through. *)
Definition semaphores_pass (cfg : BatchConfig) : Prop :=
  0 < backpressure_threshold cfg ∧ 0 < max_concurrent_batches cfg.

(** What the pool worker of item [i] of chunk [c] returns. *)
Definition worker_entry (w : World) (c : nat) (params : Params)
    (i : nat) (item : Product) : Entry :=
  _process_item_cpu item params.



End BatchSpec.

Module HeapqSpec.

(** [i] is a child of [p] in the array layout. *)
Definition child (p i : nat) : Prop :=
  i = (2 * p + 1)%nat ∨ i = (2 * p + 2)%nat.

Section order.
Context {A : Type}.
(** What the items are compared by. *)
Variable key : A → Z.

(** Every item is at least its parent. *)
Definition ordered (h : list A) : Prop :=
  ∀ p i x y, child p i → h !! p = Some x → h !! i = Some y →
             key x <= key y.

(** The order away from position [pos], whose content does not count:
    every other parent and child are in order, and the children of
    [pos] are at least its parent. *)
Definition ordered_around (h : list A) (pos : nat) : Prop :=
  (∀ p i x y, child p i → p ≠ pos → i ≠ pos →
              h !! p = Some x → h !! i = Some y → key x <= key y)
  ∧ (∀ g i x y, child g pos → child pos i →
                h !! g = Some x → h !! i = Some y → key x <= key y).

(** [v] may be put at [pos] as far as the children of [pos] go. *)
Definition fits_above (h : list A) (pos : nat) (v : A) : Prop :=
  ∀ i y, child pos i → h !! i = Some y → key v <= key y.

End order.

End HeapqSpec.

Module QueueSpec.

Import Queue HeapqSpec.

(** The heap of the queue is in order of priority. *)
Definition queue_ordered (q : list QueueItem) : Prop := ordered priority q.

Definition retries_bounded (item : QueueItem) : Prop :=
  0 <= retries item <= 3.

(** What holds of the object after any sequence of events. *)
Record inv (s : PublishingQueue) : Prop := {
  inv_heap : queue_ordered (queue s);
  inv_queue : ∀ item, item ∈ queue s → retries_bounded item;
  inv_active :
    ∀ tid item, active_tasks s !! tid = Some item → retries_bounded item;
  inv_now : ∀ k now, loops s !! k = Some (InnerTest now) → now <= clock s;
  inv_dispatched :
    ∀ item t, (item, t) ∈ dispatched s →
              scheduled_at item <= t ∧ retries_bounded item
}.

End QueueSpec.

Module QueueExamples.

Import Queue.

Definition lamp : Listing := {[ "title" := "lamp" ]}.
Definition chair : Listing := {[ "title" := "chair" ]}.

Definition network_error : Res PublishResult :=
  Raise (mkExn RuntimeError "network unreachable").

(** A publisher is registered; a NORMAL listing is added, then an URGENT
    one. *)
Definition two_added : list Event :=
  [EvRegister "ebay" 1;
   EvAdd chair "ebay" NORMAL None;
   EvAdd lamp "ebay" URGENT None].

Definition normal_item : QueueItem :=
  {| oid := 0; priority := 2; scheduled_at := 0; listing := chair;
     marketplace := "ebay"; retries := 0 |}.

Definition urgent_item : QueueItem :=
  {| oid := 1; priority := 0; scheduled_at := 0; listing := lamp;
     marketplace := "ebay"; retries := 0 |}.

(** The k-th loop task starts, reads the clock and goes once through its
    inner loop. *)
Definition loop_turn (k : nat) : list Event := [EvLoop k; EvLoop k; EvLoop k].

(** One listing is added and the loop task stands at its inner test. *)
Definition one_ready : list Event :=
  [EvRegister "ebay" 1; EvAdd lamp "ebay" NORMAL None; EvLoop 0; EvLoop 0].

(** One listing is added and handed to a publish task. *)
Definition one_dispatched : list Event := one_ready ++ [EvLoop 0].

(** The lamp listing, after [r] retries, due at [due]. *)
Definition lamp_item (r due : Z) : QueueItem :=
  {| oid := 0; priority := 2; scheduled_at := due; listing := lamp;
     marketplace := "ebay"; retries := r |}.

(** The publication fails; after [wait] the processing is paused and
    resumed, and the new loop task, the k-th, hands the item to a task
    again. *)
Definition fail_and_retry (wait : N) (k : nat) : list Event :=
  [EvTaskDone ("ebay", 0%nat) network_error; EvTick wait; EvPause; EvResume]
  ++ loop_turn k.

(** Three failures, each followed by its retry. *)
Definition three_retries : list Event :=
  one_dispatched ++ fail_and_retry 300000000 1
                 ++ fail_and_retry 600000000 2
                 ++ fail_and_retry 900000000 3.

End QueueExamples.

(** ** Further notions and sample inputs *)

Module QueueMoreSpec.
Import Queue.

(** No more publish tasks than [max_concurrent] allows. *)
Definition within_limit (s : PublishingQueue) : Prop :=
  Z.of_nat (size (active_tasks s)) <= Z.max 0 (max_concurrent s).

(** Time passes, or the k-th loop task advances. *)
Definition passes (k : nat) (ev : Event) : bool :=
  match ev with
  | EvTick _ => true
  | EvLoop j => bool_decide (j = k)
  | _ => false
  end.

Definition is_add (ev : Event) : bool :=
  match ev with EvAdd _ _ _ _ => true | _ => false end.

(** The events whose code reads [_running]: [add_to_queue] and
    [resume]. *)
Definition reads_running (ev : Event) : bool :=
  match ev with
  | EvAdd _ _ _ _ | EvResume => true
  | _ => false
  end.

(** The items with identity [n] handed to a publish task so far, in the
    order of the dispatches. *)
Definition attempts (n : nat) (s : PublishingQueue) : list QueueItem :=
  filter (λ item, oid item = n) (fst <$> dispatched s).

(** Each attempt on an item carries more retries than the one before. *)
Definition more_retries (a b : QueueItem) : Prop := retries a < retries b.

(** What holds of the identities and of the record of dispatches after
    any sequence of events. *)
Record inv_ids (s : PublishingQueue) : Prop := {
  ids_queue : NoDup (oid <$> queue s);
  ids_active :
    ∀ tid item x, active_tasks s !! tid = Some item → x ∈ queue s →
                  oid x ≠ oid item;
  ids_active_inj :
    ∀ tid1 tid2 i1 i2,
      active_tasks s !! tid1 = Some i1 → active_tasks s !! tid2 = Some i2 →
      oid i1 = oid i2 → tid1 = tid2;
  ids_fresh_queue : ∀ x, x ∈ queue s → (oid x < next_id s)%nat;
  ids_fresh_active :
    ∀ tid item, active_tasks s !! tid = Some item → (oid item < next_id s)%nat;
  ids_fresh_log :
    ∀ d, d ∈ fst <$> dispatched s → (oid d < next_id s)%nat;
  log_sorted : ∀ n, StronglySorted more_retries (attempts n s);
  log_queue :
    ∀ x d, x ∈ queue s → d ∈ fst <$> dispatched s → oid d = oid x →
           retries d < retries x;
  log_active :
    ∀ tid x d, active_tasks s !! tid = Some x → d ∈ fst <$> dispatched s →
               oid d = oid x → retries d <= retries x
}.

End QueueMoreSpec.

Module QueueMoreExamples.
Import Queue QueueExamples.

(** A listing is added for a later time, and the loop task has read the
    clock and stands at its inner test. *)
Definition one_scheduled : list Event :=
  [EvRegister "ebay" 1; EvAdd lamp "ebay" NORMAL (Some 1000000);
   EvLoop 0; EvLoop 0].

(** Two seconds pass and the loop task has two more turns. *)
Definition two_seconds_later : list Event :=
  [EvTick 2000000; EvLoop 0; EvLoop 0].

End QueueMoreExamples.

Module ContainerSpec.
Import Container.

(** The operation is a [register] under [name]. *)
Definition registers (name : string) (op : Op) : bool :=
  match op with
  | Register name' _ _ => bool_decide (name' = name)
  | _ => false
  end.

End ContainerSpec.

Module ContainerExamples.
Import Container.

(** The n-th factory call gives a new object, number [n]. *)
Definition fresh_objects : Calls := λ _ n, Return (Some n).

(** A metrics collector is registered and resolved once. *)
Definition metrics_resolved : list Op :=
  [Register "metrics" 7%nat true; Resolve "metrics"].

End ContainerExamples.

(** * Properties *)

(** ** Python built-ins *)

Module PyFacts.

Lemma bind_Return {A B} (m : Res A) (k : A → Res B) (b : B) :
  Py.bind m k = Return b → ∃ a, m = Return a ∧ k a = Return b.
Proof. destruct m as [a|e]; simpl; [eauto | discriminate]. Qed.

Lemma len_nonneg {A} (l : list A) : 0 <= len l.
Proof. unfold len. lia. Qed.

(** With a positive step, [range(0, n, step)] has [ceil(n / step)]
    elements. *)
Lemma range_len_pos (n step : Z) :
  0 < step → 0 <= n →
  range_len 0 n step = (n + step - 1) / step.
Proof.
  intros Hs Hn. unfold range_len.
  destruct (Z.ltb_spec 0 step) as [_|]; [|lia].
  destruct (Z.ltb_spec 0 n) as [Hpos|Hle].
  - replace (n + step - 1) with ((n - 0 - 1) + 1 * step) by lia.
    rewrite Z.div_add by lia. lia.
  - assert (n = 0) as -> by lia.
    symmetry. apply Z.div_small. lia.
Qed.

(** A positive slice inside the list. *)
Lemma slice_nat {A} (l : list A) (i b : nat) :
  (i <= length l)%nat →
  slice l (Z.of_nat i) (Z.of_nat i + Z.of_nat b) = take b (drop i l).
Proof.
  intros Hi. unfold slice, clamp, len.
  destruct (Z.ltb_spec (Z.of_nat i) 0) as [|_]; [lia|].
  destruct (Z.ltb_spec (Z.of_nat i + Z.of_nat b) 0) as [|_]; [lia|].
  rewrite (Z.min_l (Z.of_nat i)) by lia.
  rewrite Nat2Z.id.
  destruct (Z.min_spec (Z.of_nat i + Z.of_nat b) (Z.of_nat (length l)))
    as [[Hlt ->]|[Hge ->]].
  - f_equal. lia.
  - rewrite !take_ge; [done | rewrite length_drop; lia | rewrite length_drop; lia].
Qed.

(** [l.remove(x)] takes exactly one value out. *)
Lemma remove_length `{EqDecision A} (x : A) (l l' : list A) :
  remove x l = Return l' → length l = S (length l').
Proof.
  revert l'. induction l as [|y l IH]; intros l'; simpl; [discriminate|].
  destruct (decide (y = x)).
  - intros [= ->]. done.
  - intros H. apply bind_Return in H as (r & Hr & [= <-]).
    simpl. f_equal. by apply IH.
Qed.

(** [l.remove(x)] raises when no value of [l] equals [x]. *)
Lemma remove_absent `{EqDecision A} (x : A) (l : list A) :
  x ∉ l →
  remove x l = Raise (mkExn ValueError "list.remove(x): x not in list").
Proof.
  induction l as [|y l IH]; intros Hx; simpl; [done|].
  apply not_elem_of_cons in Hx as [Hne Hx].
  destruct (decide (y = x)); [congruence|].
  by rewrite IH.
Qed.

(** [l.index(x)] raises when no value of [l] equals [x]. *)
Lemma index_absent `{EqDecision A} (x : A) (l : list A) :
  x ∉ l → index x l = Raise (mkExn ValueError "x is not in list").
Proof.
  induction l as [|y l IH]; intros Hx; simpl; [done|].
  apply not_elem_of_cons in Hx as [Hne Hx].
  destruct (decide (y = x)); [congruence|].
  by rewrite IH.
Qed.

Lemma for_each_from_length {A B} (f : nat → A → Res B) start l rs :
  for_each_from f start l = Return rs → length rs = length l.
Proof.
  revert start rs. induction l as [|x l IH]; intros start rs; simpl.
  - by intros [= <-].
  - intros H. apply bind_Return in H as (y & _ & H).
    apply bind_Return in H as (ys & Hys & [= <-]).
    simpl. f_equal. eauto.
Qed.


End PyFacts.

(** ** The batch processor *)

Module BatchFacts.

Import Batch BatchSpec PyFacts.

(** *** Chunks *)

Lemma pieces_S {T} (b m : nat) (items : list T) :
  pieces b (S m) items = take b items :: pieces b m (drop b items).
Proof.
  unfold pieces. simpl. f_equal.
  rewrite <- fmap_S_seq, <- list_fmap_compose.
  apply Forall_fmap_ext, Forall_forall. intros k _. simpl.
  rewrite drop_drop. do 2 (f_equal; try lia).
Qed.

Lemma pieces_concat {T} (b m : nat) (items : list T) :
  (length items <= m * b)%nat → concat (pieces b m items) = items.
Proof.
  revert items. induction m as [|m IH]; intros items Hlen.
  - destruct items; [done | simpl in Hlen; lia].
  - rewrite pieces_S. simpl. rewrite IH; [apply take_drop|].
    rewrite length_drop. lia.
Qed.

Lemma pieces_lookup {T} (b m : nat) (items : list T) k piece :
  pieces b m items !! k = Some piece →
  (k < m)%nat ∧ piece = take b (drop (k * b) items).
Proof.
  unfold pieces. rewrite list_lookup_fmap.
  destruct (seq 0 m !! k) as [j|] eqn:Hj; [|done].
  apply lookup_seq in Hj as [-> ?]. simpl. intros [= <-]. done.
Qed.

Lemma chunk_count_bounds (n b : Z) :
  0 < b → 0 <= n →
  (Z.of_nat (chunk_count n b) - 1) * b < n <= Z.of_nat (chunk_count n b) * b.
Proof.
  intros Hb Hn. unfold chunk_count.
  assert (0 <= (n + b - 1) / b) by (apply Z.div_pos; lia).
  rewrite Z2Nat.id by done.
  pose proof (Z.div_mod (n + b - 1) b ltac:(lia)) as Hdm.
  pose proof (Z.mod_pos_bound (n + b - 1) b Hb). nia.
Qed.

(** [_create_batches] with a positive [batch_size]. *)
Lemma _create_batches_pieces {T} (cfg : BatchConfig) (items : list T) :
  0 < batch_size cfg →
  _create_batches cfg items =
    Return (pieces (Z.to_nat (batch_size cfg))
                   (chunk_count (len items) (batch_size cfg)) items).
Proof.
  intros Hb. unfold _create_batches, range.
  destruct (Z.eqb_spec (batch_size cfg) 0) as [|_]; [lia|]. simpl.
  rewrite range_len_pos by (done || apply len_nonneg).
  fold (chunk_count (len items) (batch_size cfg)).
  pose proof (chunk_count_bounds (len items) (batch_size cfg) Hb
                (len_nonneg _)) as [Hlo _].
  f_equal. unfold pieces. rewrite <- list_fmap_compose.
  apply Forall_fmap_ext, Forall_forall. intros k Hk. simpl.
  apply list_elem_of_lookup in Hk as [i Hi].
  apply lookup_seq in Hi as [-> Hi]. simpl.
  assert (Z.of_nat i * batch_size cfg <= len items) as Hle by nia.
  unfold len in Hle.
  set (b := Z.to_nat (batch_size cfg)).
  assert (batch_size cfg = Z.of_nat b) as Hbz by (unfold b; lia).
  rewrite Hbz in Hle |- *. rewrite Z.add_0_l.
  replace (Z.of_nat i * Z.of_nat b) with (Z.of_nat (i * b)) by lia.
  apply slice_nat. nia.
Qed.

(** The chunks: together they are the input, none is empty, all but the
    last hold [batch_size] items and the last holds at most as many. *)
Lemma _create_batches_spec {T} (cfg : BatchConfig) (items : list T) :
  0 < batch_size cfg →
  ∃ batches,
    _create_batches cfg items = Return batches ∧
    concat batches = items ∧
    len batches = (len items + batch_size cfg - 1) / batch_size cfg ∧
    ∀ k batch, batches !! k = Some batch →
      0 < len batch <= batch_size cfg ∧
      ((S k < length batches)%nat → len batch = batch_size cfg).
Proof.
  intros Hb. eexists. split; [by apply _create_batches_pieces|].
  pose proof (chunk_count_bounds (len items) (batch_size cfg) Hb
                (len_nonneg _)) as [Hlo Hhi].
  set (m := chunk_count (len items) (batch_size cfg)) in *.
  set (b := Z.to_nat (batch_size cfg)).
  assert (Z.of_nat b = batch_size cfg) as Hbz by (unfold b; lia).
  assert (length (pieces b m items) = m) as Hm
    by (unfold pieces; by rewrite length_fmap, length_seq).
  split; [|split].
  - apply pieces_concat. unfold len in Hhi. nia.
  - unfold len at 1. rewrite Hm. unfold m, chunk_count.
    rewrite Z2Nat.id; [done|]. apply Z.div_pos; unfold len; lia.
  - intros k batch Hk. apply pieces_lookup in Hk as [Hkm ->].
    rewrite Hm. unfold len in *.
    rewrite length_take, length_drop. split; [nia|]. intros Hlast. nia.
Qed.

(** *** One entry per item *)

Lemma collect_length cfg w c batch params futures waits now pending results rs :
  collect cfg w c batch params futures waits now pending results = Return rs →
  length rs = (length results + length waits)%nat.
Proof.
  revert now pending results.
  induction waits as [|future waits IH]; intros now pending results; simpl.
  - intros [= <-]. lia.
  - destruct (await_next _ _ _ _ _ _ _) as [[r now'] pending'].
    destruct r as [result|e].
    + intros H. apply IH in H. rewrite length_app in H. simpl in H. lia.
    + intros H. apply bind_Return in H as (i & _ & H).
      apply bind_Return in H as (it & _ & H).
      apply IH in H. rewrite length_app in H. simpl in H. lia.
Qed.

Lemma process_cpu_length cfg w c batch params rs :
  process_cpu cfg w c batch params = Return rs → length rs = length batch.
Proof.
  unfold process_cpu, as_completed. intros H.
  apply collect_length in H.
  by rewrite !length_fmap, !length_seq in H.
Qed.

Lemma _process_single_batch_length depth cfg w c attempt batch params rs :
  _process_single_batch depth cfg w c attempt batch params = Return rs →
  length rs = length batch.
Proof.
  revert attempt.
  induction depth as [depth IH] using lt_wf_ind. intros attempt.
  destruct depth as [|depth]; simpl; [discriminate|].
  destruct (enable_gpu cfg && (20 <? len batch)).
  - destruct depth as [|depth]; simpl; [discriminate|].
    destruct (gpu_optimizer _ _ _ _ _ _) as [out|e].
    + intros [= <-]. apply length_imap.
    + apply IH. lia.
  - apply process_cpu_length.
Qed.

Lemma for_each_from_concat_length {A B} (f : nat → list A → Res (list B))
    start l rs :
  (∀ c x y, f c x = Return y → length y = length x) →
  for_each_from f start l = Return rs →
  length (concat rs) = length (concat l).
Proof.
  intros Hf. revert start rs.
  induction l as [|x l IH]; intros start rs; simpl.
  - by intros [= <-].
  - intros H. apply bind_Return in H as (y & Hy & H).
    apply bind_Return in H as (ys & Hys & [= <-]).
    simpl. rewrite !length_app. erewrite Hf, IH; eauto.
Qed.

Lemma tally_one_entries t result :
  entries (tally_one t result) = S (entries t).
Proof.
  unfold entries. destruct result; simpl; rewrite length_app; simpl; lia.
Qed.

Lemma fold_tally_entries l t :
  entries (fold_left tally_one l t) = (entries t + length l)%nat.
Proof.
  revert t. induction l as [|x l IH]; intros t; simpl; [lia|].
  rewrite IH, tally_one_entries. lia.
Qed.

Lemma aggregate_entries_from results t :
  entries (fold_left (λ t batch_results, fold_left tally_one batch_results t)
             results t)
  = (entries t + length (concat results))%nat.
Proof.
  revert t. induction results as [|x l IH]; intros t; simpl; [lia|].
  rewrite IH, fold_tally_entries, length_app. lia.
Qed.

Lemma aggregate_entries results :
  entries (aggregate results) = length (concat results).
Proof. unfold aggregate. by rewrite aggregate_entries_from. Qed.

Lemma merge_retry_entries t result t' :
  merge_retry t result = Return t' → entries t' = entries t.
Proof.
  unfold merge_retry, entries. destruct result as [r|f].
  - intros H. apply bind_Return in H as (failed' & Hrm & [= <-]).
    apply remove_length in Hrm. simpl. rewrite length_app, Hrm. simpl. lia.
  - by intros [= <-].
Qed.

Lemma for_fold_merge_entries rr t t' :
  for_fold merge_retry t rr = Return t' → entries t' = entries t.
Proof.
  revert t. induction rr as [|x rr IH]; intros t; simpl.
  - by intros [= <-].
  - intros H. apply bind_Return in H as (t1 & H1 & H).
    apply IH in H. apply merge_retry_entries in H1. lia.
Qed.

(** Once the retry is done the two lists hold one entry per product. *)
Lemma process_batch_tally_entries cfg w products params batches t :
  0 < batch_size cfg →
  process_batch_tally cfg w products params = Return (batches, t) →
  entries t = length products.
Proof.
  intros Hb H. unfold process_batch_tally in H.
  apply bind_Return in H as (bs' & Hbatches & H).
  apply bind_Return in H as (results & Hresults & H).
  apply bind_Return in H as (t' & Ht & [= <- <-]).
  destruct (_create_batches_spec cfg products Hb) as (bs & Hbs & Hcat & _).
  rewrite Hbs in Hbatches. injection Hbatches as <-.
  unfold _process_batches_concurrent in Hresults.
  apply for_each_from_concat_length in Hresults;
    [|intros ????; by eapply _process_single_batch_length].
  rewrite Hcat in Hresults.
  assert (entries t' = entries (aggregate results)) as Hent.
  { destruct (retry_failed cfg && is_nonempty (t_failed (aggregate results))).
    - apply bind_Return in Ht as (rr & _ & Ht).
      by apply for_fold_merge_entries in Ht.
    - by injection Ht as <-. }
  rewrite aggregate_entries, Hresults in Hent. exact Hent.
Qed.

(** *** The result that is never built *)

(** [OptimizationResult] has no parameter [title]. *)
Lemma new_OptimizationResult_title value kwargs :
  new_OptimizationResult (("title", value) :: kwargs)
  = Raise (unexpected_keyword "title").
Proof. reflexivity. Qed.

Lemma _optimize_single_item_raises item params :
  _optimize_single_item item params = Raise (unexpected_keyword "title").
Proof. apply new_OptimizationResult_title. Qed.

Lemma _process_item_cpu_entry item params :
  _process_item_cpu item params
  = Fail {| error := exn_msg (unexpected_keyword "title"); item := item;
            type := Some "processing_error" |}.
Proof. reflexivity. Qed.

(** *** The metrics *)

(** [process_batch] gets no further than the first update of the
    metrics. *)
Lemma process_batch_raises cfg w products params :
  process_batch cfg w products params =
    match process_batch_tally cfg w products params with
    | Return _ => Raise (no_attribute metrics "gauge")
    | Raise e => Raise e
    end.
Proof.
  unfold process_batch. by destruct (process_batch_tally _ _ _ _).
Qed.

Lemma process_batch_never_returns cfg w products params :
  returns (process_batch cfg w products params) = false.
Proof.
  rewrite process_batch_raises. by destruct (process_batch_tally _ _ _ _).
Qed.

(** *** The CPU path *)

(** A coroutine of [as_completed] is not one of the futures. *)
Lemma index_wait_for_one (k : nat) (positions : list nat) :
  index (WaitForOne k) (ExecutorFuture <$> positions)
  = Raise (mkExn ValueError "x is not in list").
Proof.
  apply index_absent. intros Hin.
  apply list_elem_of_fmap in Hin as (i & Hi & _). discriminate.
Qed.

Lemma future_result_from_worker w c batch params i e :
  future_result w c batch params i = Return e → from_worker e.
Proof.
  unfold future_result. destruct (executor_failure w c i); [discriminate|].
  intros H. apply bind_Return in H as (it & _ & [= <-]).
  by rewrite _process_item_cpu_entry.
Qed.

Lemma await_next_from_worker w c batch params timeout now pending e now' pending' :
  await_next w c batch params timeout now pending = (Return e, now', pending') →
  from_worker e.
Proof.
  unfold await_next. destruct (earliest _ pending) as [i|]; [|discriminate].
  destruct (_ <? _); [|discriminate].
  intros [= H _ _]. by eapply future_result_from_worker.
Qed.

(** The loop gives a list only when no wait raised: both handlers stop
    at [futures.index(future)]. *)
Lemma collect_from_worker cfg w c batch params positions waits now pending
    results rs :
  Forall (λ a, ∃ k, a = WaitForOne k) waits →
  Forall from_worker results →
  collect cfg w c batch params (ExecutorFuture <$> positions) waits now
          pending results = Return rs →
  Forall from_worker rs.
Proof.
  intros Hwaits. revert now pending results.
  induction Hwaits as [|future waits [k ->] _ IH];
    intros now pending results Hres; simpl.
  - by intros [= <-].
  - destruct (await_next _ _ _ _ _ _ _) as [[r now'] pending'] eqn:Hawait.
    destruct r as [result|e].
    + apply IH. apply Forall_app. split; [done|].
      apply Forall_singleton. by eapply await_next_from_worker.
    + rewrite index_wait_for_one. discriminate.
Qed.

Lemma process_cpu_from_worker cfg w c batch params rs :
  process_cpu cfg w c batch params = Return rs → Forall from_worker rs.
Proof.
  unfold process_cpu, as_completed.
  apply collect_from_worker; [|done].
  apply Forall_fmap, Forall_forall. intros k _. by exists k.
Qed.

(** A chunk of one item that is not finished within the timeout. *)
Lemma process_cpu_one_timeout cfg w c item params :
  timeout_per_item cfg <= finishes_after w (FirstPass c 0) →
  process_cpu cfg w c [item] params
  = Raise (mkExn ValueError "x is not in list").
Proof.
  intros Hslow. unfold process_cpu, as_completed. simpl.
  unfold await_next. simpl.
  destruct (Z.ltb_spec (finishes_after w (FirstPass c 0))
              (0 + timeout_per_item cfg)); [lia|].
  reflexivity.
Qed.

(** A chunk of one item whose future raises. *)
Lemma process_cpu_one_failure cfg w c item params e :
  executor_failure w c 0 = Some e →
  process_cpu cfg w c [item] params
  = Raise (mkExn ValueError "x is not in list").
Proof.
  intros Hfail. unfold process_cpu, as_completed. simpl.
  unfold await_next. simpl.
  destruct (_ <? _); simpl.
  - unfold future_result. by rewrite Hfail.
  - reflexivity.
Qed.

(** *** The GPU path *)

(** While the GPU path raises, the two functions only call each other. *)
Lemma gpu_fallback_never_returns depth cfg w c attempt batch params :
  enable_gpu cfg = true → 20 < len batch →
  (∀ n titles descriptions categories,
     returns (gpu_optimizer w c n titles descriptions categories) = false) →
  _process_single_batch depth cfg w c attempt batch params
  = Raise (mkExn RecursionError "maximum recursion depth exceeded").
Proof.
  intros Hgpu Hlen Hraise. revert attempt.
  induction depth as [depth IH] using lt_wf_ind. intros attempt.
  destruct depth as [|depth]; simpl; [done|].
  rewrite Hgpu. destruct (Z.ltb_spec 20 (len batch)); [|lia]. simpl.
  destruct depth as [|depth]; simpl; [done|].
  specialize (Hraise attempt
    ((λ item, dict_get item "title" "") <$> batch)
    ((λ item, dict_get item "description" "") <$> batch)
    ((λ item, dict_get item "category" "General") <$> batch)).
  destruct (gpu_optimizer _ _ _ _ _ _); [discriminate|].
  apply IH. lia.
Qed.

(** What the inner handler of the GPU path records for an item: the
    [IndexError] of a subscript, or the [TypeError] of the call. *)
Lemma gpu_entry_failure out i item :
  gpu_entry out i item
  = Fail {| error :=
              match optimized_titles out !! i, optimized_descriptions out !! i,
                    keywords_batch out !! i with
              | Some _, Some _, Some _ => exn_msg (unexpected_keyword "title")
              | _, _, _ => "list index out of range"
              end;
            item := item; type := Some "gpu_processing_error" |}.
Proof.
  unfold gpu_entry, getitem.
  destruct (optimized_titles out !! i); simpl; [|done].
  destruct (optimized_descriptions out !! i); simpl; [|done].
  by destruct (keywords_batch out !! i).
Qed.

Lemma gpu_entry_from_gpu out i item : from_gpu (gpu_entry out i item).
Proof. by rewrite gpu_entry_failure. Qed.

(** With the GPU enabled, a chunk of more than 20 items never reaches the
    CPU branch: whatever is returned was made by the GPU path. *)
Lemma gpu_chunk_never_on_cpu depth cfg w c attempt batch params rs :
  enable_gpu cfg = true → 20 < len batch →
  _process_single_batch depth cfg w c attempt batch params = Return rs →
  Forall from_gpu rs.
Proof.
  intros Hgpu Hlen. revert attempt.
  induction depth as [depth IH] using lt_wf_ind. intros attempt.
  destruct depth as [|depth]; simpl; [discriminate|].
  rewrite Hgpu. destruct (Z.ltb_spec 20 (len batch)); [|lia]. simpl.
  destruct depth as [|depth]; simpl; [discriminate|].
  destruct (gpu_optimizer _ _ _ _ _ _) as [out|e].
  - intros [= <-]. apply Forall_forall. intros e He.
    apply list_elem_of_lookup in He as [i Hi].
    rewrite list_lookup_imap in Hi.
    destruct (batch !! i); simpl in Hi; [|done].
    injection Hi as <-. apply gpu_entry_from_gpu.
  - apply IH. lia.
Qed.

(** *** Aggregation and retry *)

Lemma tally_one_failed t result :
  Forall is_failure (t_failed t) →
  Forall is_failure (t_failed (tally_one t result)).
Proof.
  intros H. destruct result; simpl; [done|].
  apply Forall_app. split; [done|]. by apply Forall_singleton.
Qed.

Lemma fold_tally_failed l t :
  Forall is_failure (t_failed t) →
  Forall is_failure (t_failed (fold_left tally_one l t)).
Proof.
  revert t. induction l as [|x l IH]; intros t H; simpl; [done|].
  by apply IH, tally_one_failed.
Qed.

(** The [failed] list of the aggregation holds no [OptimizationResult]. *)
Lemma aggregate_failed results :
  Forall is_failure (t_failed (aggregate results)).
Proof.
  unfold aggregate.
  assert (Forall is_failure (t_failed (mkTally [] [] 0 0))) as H0
    by apply Forall_nil_2.
  revert H0. generalize (mkTally [] [] 0 0).
  induction results as [|x l IH]; intros t H; simpl; [done|].
  by apply IH, fold_tally_failed.
Qed.

(** [failed.remove(result)] with an [OptimizationResult] for [result]. *)
Lemma remove_result_raises r failed :
  Forall is_failure failed →
  remove (Opt r) failed
  = Raise (mkExn ValueError "list.remove(x): x not in list").
Proof.
  intros Hfailed. apply remove_absent. intros Hin.
  rewrite Forall_forall in Hfailed. by apply Hfailed in Hin.
Qed.

Lemma for_fold_merge_raises t retry_results r :
  Forall is_failure (t_failed t) →
  Opt r ∈ retry_results →
  for_fold merge_retry t retry_results
  = Raise (mkExn ValueError "list.remove(x): x not in list").
Proof.
  intros Hfailed Hin.
  induction retry_results as [|x rr IH]; [by apply elem_of_nil in Hin|].
  simpl. destruct x as [r'|f]; simpl.
  - by rewrite remove_result_raises.
  - apply IH. apply elem_of_cons in Hin as [|]; [discriminate | done].
Qed.

(** The retry pass gives one result per failed entry. *)
Lemma _retry_failed_items_total cfg w failed params :
  Forall is_failure failed →
  ∃ retry_results,
    _retry_failed_items cfg w failed params = Return retry_results ∧
    length retry_results = length failed.
Proof.
  unfold _retry_failed_items. generalize 0%nat. intros start Hfailed.
  revert start.
  induction Hfailed as [|x l Hx _ IH]; intros start; simpl; [by exists []|].
  destruct x as [r|f]; [done|]. simpl.
  destruct (IH (S start)) as (rr & -> & Hlen). simpl.
  destruct (wait_for _ _ _); simpl; eexists; (split; [done|]); simpl; lia.
Qed.


(** Retries that all fail leave the two lists as they are. *)
Lemma for_fold_merge_all_fail t retry_results :
  Forall is_failure retry_results →
  for_fold merge_retry t retry_results = Return t.
Proof.
  induction 1 as [|x rr Hx _ IH]; simpl; [done|].
  destruct x as [r|f]; [done|]. exact IH.
Qed.

(** *** The order of completion *)

Lemma earliest_elem finish pending :
  pending ≠ [] → ∃ i, earliest finish pending = Some i ∧ i ∈ pending.
Proof.
  induction pending as [|a l IH]; [done|]. intros _. simpl.
  destruct l as [|b l'].
  - exists a. split; [done | apply list_elem_of_here].
  - destruct IH as (j & -> & Hj); [done|].
    destruct (finish j <? finish a); eexists; (split; [done|]).
    + by apply list_elem_of_further.
    + apply list_elem_of_here.
Qed.

Lemma filter_other_absent (i : nat) (l : list nat) :
  i ∉ l → filter (λ j, j ≠ i) l = l.
Proof.
  induction l as [|a l IH]; [done|]. intros Hin.
  apply not_elem_of_cons in Hin as [Hne Hin].
  rewrite filter_cons_True by done. f_equal. by apply IH.
Qed.

Lemma filter_other_length (i : nat) (pending : list nat) :
  NoDup pending → i ∈ pending →
  S (length (filter (λ j, j ≠ i) pending)) = length pending.
Proof.
  induction 1 as [|a l Ha Hl IH]; intros Hin;
    [by apply elem_of_nil in Hin|].
  destruct (decide (a = i)) as [->|Hne].
  - rewrite filter_cons_False by (intros ?; done).
    by rewrite filter_other_absent.
  - rewrite filter_cons_True by done. simpl. f_equal. apply IH.
    apply elem_of_cons in Hin as [|]; [congruence | done].
Qed.

Lemma omap_lookup_seq {A} (pre l : list A) :
  omap (λ i, (pre ++ l) !! i) (seq (length pre) (length l)) = l.
Proof.
  revert pre. induction l as [|x l IH]; intros pre; [done|].
  simpl. rewrite list_lookup_middle by done. f_equal.
  specialize (IH (pre ++ [x])).
  rewrite length_app, <- app_assoc in IH. simpl in IH.
  by rewrite Nat.add_1_r in IH.
Qed.

Lemma filter_other_perm (i : nat) (pending : list nat) :
  NoDup pending → i ∈ pending →
  pending ≡ₚ i :: filter (λ j, j ≠ i) pending.
Proof.
  induction 1 as [|a l Ha Hl IH]; intros Hin;
    [by apply elem_of_nil in Hin|].
  destruct (decide (a = i)) as [->|Hne].
  - rewrite filter_cons_False by (intros ?; done).
    by rewrite filter_other_absent.
  - rewrite filter_cons_True by done.
    apply elem_of_cons in Hin as [|Hin]; [congruence|].
    rewrite (IH Hin) at 1. apply Permutation_swap.
Qed.

(** While no wait raises, the loop collects what the workers return, in
    the order of completion. *)
Lemma collect_perm cfg w c batch params futures waits now pending results :
  (∀ i, executor_failure w c i = None) →
  (∀ i, finishes_after w (FirstPass c i) < timeout_per_item cfg) →
  0 <= now → NoDup pending → length pending = length waits →
  (∀ i, i ∈ pending → (i < length batch)%nat) →
  ∃ rs, collect cfg w c batch params futures waits now pending results
        = Return rs ∧
        rs ≡ₚ (results
               ++ omap (λ i, imap (worker_entry w c params) batch !! i)
                       pending).
Proof.
  intros Hpool Hfast. revert now pending results.
  induction waits as [|future waits IH];
    intros now pending results Hnow Hnd Hlen Hrange; simpl.
  - destruct pending; [|simpl in Hlen; lia].
    exists results. by rewrite app_nil_r.
  - destruct pending as [|p0 pending0] eqn:Hp; [done|]. rewrite <- Hp in *.
    destruct (earliest_elem (λ i, finishes_after w (FirstPass c i)) pending)
      as (i & Hi & Hin); [by rewrite Hp|].
    unfold await_next. rewrite Hi.
    pose proof (Hfast i).
    destruct (Z.ltb_spec (finishes_after w (FirstPass c i))
                (now + timeout_per_item cfg)); [|lia].
    destruct (lookup_lt_is_Some_2 batch i (Hrange i Hin)) as [it Hit].
    unfold future_result. rewrite Hpool. unfold getitem. rewrite Hit. simpl.
    destruct (IH (Z.max now (finishes_after w (FirstPass c i)))
                (filter (λ j, j ≠ i) pending)
                (results ++ [_process_item_cpu it params]))
      as (rs & Hrs & Hperm).
    + lia.
    + by apply NoDup_filter.
    + pose proof (filter_other_length i pending Hnd Hin).
      simpl in Hlen. lia.
    + intros j Hj. apply list_elem_of_filter in Hj as [_ Hj]. by apply Hrange.
    + exists rs. split; [done|]. rewrite Hperm, <- app_assoc.
      apply Permutation_app_head.
      rewrite (filter_other_perm i pending Hnd Hin) at 2. simpl.
      by rewrite list_lookup_imap, Hit.
Qed.

Lemma process_cpu_perm cfg w c batch params :
  (∀ i, executor_failure w c i = None) →
  (∀ i, finishes_after w (FirstPass c i) < timeout_per_item cfg) →
  ∃ rs, process_cpu cfg w c batch params = Return rs ∧
        rs ≡ₚ imap (worker_entry w c params) batch.
Proof.
  intros Hpool Hfast. unfold process_cpu, as_completed.
  destruct (collect_perm cfg w c batch params
              (ExecutorFuture <$> seq 0 (length batch))
              (WaitForOne <$> seq 0 (length (ExecutorFuture <$> seq 0 (length batch))))
              0 (seq 0 (length batch)) [] Hpool Hfast) as (rs & Hrs & Hperm).
  - lia.
  - apply NoDup_seq.
  - by rewrite !length_fmap, !length_seq.
  - intros i Hi. apply elem_of_seq in Hi. lia.
  - exists rs. split; [done|]. rewrite Hperm. simpl.
    pose proof (omap_lookup_seq [] (imap (worker_entry w c params) batch))
      as Hall.
    simpl in Hall. rewrite length_imap in Hall. by rewrite Hall.
Qed.

(** *** No product is optimized *)

(** Whatever a chunk gives, it gives failure entries only. *)
Lemma collect_failures cfg w c batch params positions waits now pending
    results rs :
  Forall (λ a, ∃ k, a = WaitForOne k) waits →
  Forall is_failure results →
  collect cfg w c batch params (ExecutorFuture <$> positions) waits now
          pending results = Return rs →
  Forall is_failure rs.
Proof.
  intros Hwaits. revert now pending results.
  induction Hwaits as [|future waits [k ->] _ IH];
    intros now pending results Hres; simpl.
  - by intros [= <-].
  - destruct (await_next _ _ _ _ _ _ _) as [[r now'] pending'] eqn:Hawait.
    destruct r as [result|e].
    + apply IH. apply Forall_app. split; [done|].
      apply Forall_singleton.
      unfold await_next in Hawait.
      destruct (earliest _ pending) as [i|]; [|done].
      destruct (_ <? _); [|done].
      injection Hawait as Hres' _ _. unfold future_result in Hres'.
      destruct (executor_failure w c i); [done|].
      apply bind_Return in Hres' as (it & _ & [= <-]).
      by rewrite _process_item_cpu_entry.
    + rewrite index_wait_for_one. discriminate.
Qed.

Lemma _process_single_batch_failures depth cfg w c attempt batch params rs :
  _process_single_batch depth cfg w c attempt batch params = Return rs →
  Forall is_failure rs.
Proof.
  revert attempt.
  induction depth as [depth IH] using lt_wf_ind. intros attempt.
  destruct depth as [|depth]; simpl; [discriminate|].
  destruct (enable_gpu cfg && (20 <? len batch)).
  - destruct depth as [|depth]; simpl; [discriminate|].
    destruct (gpu_optimizer _ _ _ _ _ _) as [out|e].
    + intros [= <-]. apply Forall_forall. intros e He.
      apply list_elem_of_lookup in He as [i Hi].
      rewrite list_lookup_imap in Hi.
      destruct (batch !! i); simpl in Hi; [|done].
      injection Hi as <-. by rewrite gpu_entry_failure.
    + apply IH. lia.
  - unfold process_cpu, as_completed.
    apply collect_failures; [|done].
    apply Forall_fmap, Forall_forall. intros k _. by exists k.
Qed.

Lemma _process_batches_concurrent_failures cfg w batches params results :
  _process_batches_concurrent cfg w batches params = Return results →
  Forall (Forall is_failure) results.
Proof.
  unfold _process_batches_concurrent.
  assert (∀ start results,
    for_each_from
      (λ c batch, _process_single_batch (recursion_limit w) cfg w c 0 batch
                                        params)
      start batches = Return results →
    Forall (Forall is_failure) results) as Hgen; [|apply Hgen].
  clear results.
  induction batches as [|batch batches IH]; intros start results; simpl.
  - intros [= <-]. constructor.
  - intros H. apply bind_Return in H as (rs & Hrs & H).
    apply bind_Return in H as (rest & Hrest & [= <-]).
    constructor; [by eapply _process_single_batch_failures|].
    exact (IH _ _ Hrest).
Qed.

Lemma fold_tally_all_fail l t :
  Forall is_failure l →
  fold_left tally_one l t
  = {| t_successful := t_successful t;
       t_failed := t_failed t ++ l;
       _processed_count := _processed_count t;
       _failed_count := _failed_count t + len l |}.
Proof.
  intros Hl. revert t.
  induction Hl as [|x l Hx _ IH]; intros t; simpl.
  - destruct t. simpl. rewrite app_nil_r. f_equal. unfold len. simpl. lia.
  - rewrite IH. destruct x as [r|f]; [done|]. simpl.
    rewrite <- app_assoc. f_equal. unfold len. simpl. lia.
Qed.

(** The first pass leaves [successful] empty and every entry in
    [failed]. *)
Lemma aggregate_all_fail results :
  Forall (Forall is_failure) results →
  aggregate results
  = {| t_successful := []; t_failed := concat results;
       _processed_count := 0; _failed_count := len (concat results) |}.
Proof.
  unfold aggregate. intros Hall.
  assert (∀ t,
    fold_left (λ t batch_results, fold_left tally_one batch_results t)
      results t
    = {| t_successful := t_successful t;
         t_failed := t_failed t ++ concat results;
         _processed_count := _processed_count t;
         _failed_count := _failed_count t + len (concat results) |}) as Hgen.
  { induction Hall as [|x l Hx _ IH]; intros t; simpl.
    - destruct t. simpl. rewrite app_nil_r. f_equal. unfold len. simpl. lia.
    - rewrite IH, fold_tally_all_fail by done. simpl.
      rewrite <- app_assoc. f_equal.
      unfold len. rewrite length_app. lia. }
  by rewrite Hgen.
Qed.

(** Every retry raises in its turn. *)
Lemma _retry_failed_items_all_fail cfg w failed params retry_results :
  _retry_failed_items cfg w failed params = Return retry_results →
  Forall is_failure retry_results.
Proof.
  unfold _retry_failed_items. generalize 0%nat. revert retry_results.
  induction failed as [|x l IH]; intros rr start; simpl.
  - intros [= <-]. constructor.
  - intros H. apply bind_Return in H as (y & Hy & H).
    apply bind_Return in H as (ys & Hys & [= <-]).
    constructor; [|exact (IH _ _ Hys)].
    apply bind_Return in Hy as (original & _ & Hy).
    rewrite _optimize_single_item_raises in Hy.
    unfold wait_for in Hy. by destruct (_ <? _); injection Hy as <-.
Qed.

(** So the retry pass leaves the two lists and the two counters as they
    were. *)
Lemma retry_changes_nothing cfg w t params :
  Forall is_failure (t_failed t) →
  (if retry_failed cfg && is_nonempty (t_failed t)
   then let! retry_results :=
          _retry_failed_items cfg w (t_failed t) params in
        for_fold merge_retry t retry_results
   else Return t) = Return t.
Proof.
  intros Hfailed. destruct (_ && _); [|done].
  destruct (_retry_failed_items_total cfg w (t_failed t) params Hfailed)
    as (rr & Hrr & _).
  rewrite Hrr. simpl. apply for_fold_merge_all_fail.
  by eapply _retry_failed_items_all_fail.
Qed.

Lemma process_batch_tally_first_pass cfg w products params :
  process_batch_tally cfg w products params =
    let! batches := _create_batches cfg products in
    let! results := _process_batches_concurrent cfg w batches params in
    Return (batches, aggregate results).
Proof.
  unfold process_batch_tally.
  destruct (_create_batches cfg products) as [batches|e]; [|done]. simpl.
  destruct (_process_batches_concurrent cfg w batches params)
    as [results|e] eqn:Hresults; [|done]. simpl.
  by rewrite retry_changes_nothing by apply aggregate_failed.
Qed.

(** On the CPU path, with a pool that works and workers done in time,
    every chunk gives its entries. *)
Lemma for_each_chunk_returns cfg w params (depth : nat) start batches :
  (0 < depth)%nat →
  (∀ c i, executor_failure w c i = None) →
  (∀ c i, finishes_after w (FirstPass c i) < timeout_per_item cfg) →
  Forall (λ batch, enable_gpu cfg && (20 <? len batch) = false) batches →
  ∃ results,
    for_each_from
      (λ c batch, _process_single_batch depth cfg w c 0 batch params)
      start batches = Return results.
Proof.
  intros Hdepth Hpool Hfast Hcpu. revert start.
  induction Hcpu as [|batch batches Hb _ IH]; intros start; simpl.
  - by exists [].
  - destruct depth as [|depth]; [lia|]. simpl. rewrite Hb.
    destruct (process_cpu_perm cfg w start batch params (Hpool start)
                (Hfast start)) as (rs & -> & _).
    simpl. destruct (IH (S start)) as (results & Hres).
    simpl in Hres. rewrite Hres. simpl. by eexists.
Qed.

Lemma process_batch_tally_returns cfg w products params :
  0 < batch_size cfg →
  (enable_gpu cfg = false ∨ batch_size cfg <= 20) →
  (0 < recursion_limit w)%nat →
  (∀ c i, executor_failure w c i = None) →
  (∀ c i, finishes_after w (FirstPass c i) < timeout_per_item cfg) →
  ∃ batches t,
    process_batch_tally cfg w products params = Return (batches, t) ∧
    t_successful t = [] ∧ length (t_failed t) = length products.
Proof.
  intros Hb Hcpu Hdepth Hpool Hfast.
  destruct (_create_batches_spec cfg products Hb)
    as (batches & Hbatches & Hcat & _ & Hsizes).
  destruct (for_each_chunk_returns cfg w params (recursion_limit w) 0 batches
              Hdepth Hpool Hfast) as (results & Hresults).
  { apply Forall_forall. intros batch Hin.
    apply list_elem_of_lookup in Hin as [k Hk].
    apply Hsizes in Hk as [Hk _].
    destruct Hcpu as [->|Hsmall]; [done|].
    destruct (Z.ltb_spec 20 (len batch)); [lia|]. apply andb_false_r. }
  assert (process_batch_tally cfg w products params
          = Return (batches, aggregate results)) as Htally.
  { rewrite process_batch_tally_first_pass, Hbatches. simpl.
    unfold _process_batches_concurrent. by rewrite Hresults. }
  exists batches, (aggregate results). split; [done|].
  pose proof (process_batch_tally_entries cfg w products params _ _ Hb Htally)
    as Hent.
  rewrite aggregate_all_fail in *
    by (eapply _process_batches_concurrent_failures;
        unfold _process_batches_concurrent; exact Hresults).
  split; [done|]. unfold entries in Hent. simpl in *. lia.
Qed.

(** *** The stream *)



Lemma stream_loop_cons cfg worlds params item rest window run :
  stream_loop cfg worlds params (item :: rest) window run =
    if len (window ++ [item]) >=? batch_size cfg
    then
      match stream_error (flush cfg worlds params (window ++ [item]) run) with
      | Some _ => flush cfg worlds params (window ++ [item]) run
      | None =>
          stream_loop cfg worlds params rest []
                      (flush cfg worlds params (window ++ [item]) run)
      end
    else stream_loop cfg worlds params rest (window ++ [item]) run.
Proof. reflexivity. Qed.



(** *** The claims on the batch processor *)

Import BatchExamples.



(** C2. The claim: a well-formed call of [process_batch] returns a
    [BatchResult] and no item-level failure aborts the batch. The code: a
    single product whose operation is not finished within the timeout, or
    whose future raises, makes the handler evaluate
    [futures.index(future)] on a coroutine of [as_completed], and the
    [ValueError] leaves [process_batch]. *)
Theorem C2_item_failure_aborts_batch cfg w item params :
  0 < batch_size cfg →
  (0 < recursion_limit w)%nat →
  timeout_per_item cfg <= finishes_after w (FirstPass 0 0)
  ∨ is_Some (executor_failure w 0 0) →
  process_batch cfg w [item] params
  = Raise (mkExn ValueError "x is not in list").
Proof.
  intros Hb Hdepth Hfault.
  destruct (_create_batches_spec cfg [item] Hb)
    as (batches & Hbatches & Hcat & _ & Hsizes).
  assert (batches = [[item]]) as ->.
  { destruct batches as [|b0 bs]; [done|].
    destruct (Hsizes 0%nat b0 eq_refl) as [[Hpos _] _].
    destruct b0 as [|x b0]; [unfold len in Hpos; simpl in Hpos; lia|].
    simpl in Hcat. injection Hcat as -> Hcat.
    apply app_eq_nil in Hcat as [-> Hcat].
    destruct bs as [|b1 bs]; [done|].
    destruct (Hsizes 1%nat b1 eq_refl) as [[Hpos1 _] _].
    simpl in Hcat. apply app_eq_nil in Hcat as [-> _].
    unfold len in Hpos1. simpl in Hpos1. lia. }
  rewrite process_batch_raises.
  unfold process_batch_tally, _process_batches_concurrent.
  rewrite Hbatches. simpl.
  destruct (recursion_limit w) as [|depth]; [lia|]. simpl.
  rewrite andb_false_r.
  destruct Hfault as [Hslow|[e Hfail]].
  - by rewrite process_cpu_one_timeout.
  - by rewrite (process_cpu_one_failure _ _ _ _ _ e).
Qed.

Lemma C2_item_failure_aborts_batch_witness :
  process_batch cpu_config slow [product "lamp"] None
  = Raise (mkExn ValueError "x is not in list").
Proof.
  apply C2_item_failure_aborts_batch.
  - reflexivity.
  - simpl. lia.
  - left. simpl. lia.
Defined.

(** C3. The claim: when the GPU path of a chunk raises, the chunk falls
    back to the CPU path, the fallback terminates and the chunk yields one
    entry per item, without aborting the other chunks. The code: the
    fallback calls [_process_single_batch], which selects the GPU path
    again for the same chunk. So a chunk of more than 20 items never gets
    to the CPU branch: whatever is returned for it was made by the GPU
    path; and while the GPU path raises the two functions call each other
    until [RecursionError], which leaves [process_batch]. *)
Theorem C3_gpu_fallback_recurses cfg w c attempt batch params depth :
  enable_gpu cfg = true → 20 < len batch →
  (∀ results,
     _process_single_batch depth cfg w c attempt batch params = Return results →
     Forall from_gpu results)
  ∧ ((∀ n titles descriptions categories,
        returns (gpu_optimizer w c n titles descriptions categories) = false) →
     _process_single_batch depth cfg w c attempt batch params
     = Raise (mkExn RecursionError "maximum recursion depth exceeded")
     ∧ (c = 0%nat → 20 < batch_size cfg →
        returns (process_batch cfg w batch params) = false)).
Proof.
  intros Hgpu Hlen. split.
  { intros results. by apply gpu_chunk_never_on_cpu. }
  intros Hraise.
  split; [by apply gpu_fallback_never_returns|].
  intros -> Hb.
  destruct (_create_batches_spec cfg batch ltac:(lia))
    as (batches & Hbatches & Hcat & _ & Hsizes).
  rewrite process_batch_raises.
  unfold process_batch_tally. rewrite Hbatches. simpl.
  destruct batches as [|b0 bs].
  { simpl in Hcat. subst batch. unfold len in Hlen. simpl in Hlen. lia. }
  assert (20 < len b0) as Hbig.
  { destruct (Hsizes 0%nat b0 eq_refl) as [_ Hfull].
    destruct bs as [|b1 bs].
    - simpl in Hcat. rewrite app_nil_r in Hcat. by subst b0.
    - rewrite Hfull; [done | simpl; lia]. }
  unfold _process_batches_concurrent. simpl.
  by rewrite (gpu_fallback_never_returns _ cfg w 0 0 b0 params).
Qed.

Lemma C3_gpu_fallback_recurses_witness :
  _process_single_batch 1000 (default_config 4) calm 0 0
    (replicate 21 (product "lamp")) None
  = Raise (mkExn RecursionError "maximum recursion depth exceeded")
  ∧ returns (process_batch (default_config 4) calm
               (replicate 21 (product "lamp")) None) = false.
Proof.
  destruct (C3_gpu_fallback_recurses (default_config 4) calm 0 0
              (replicate 21 (product "lamp")) None 1000
              eq_refl eq_refl) as [_ Hraise].
  destruct (Hraise (λ _ _ _ _, eq_refl)) as [H1 H2].
  split; [exact H1 | exact (H2 eq_refl eq_refl)].
Defined.

(** C4. The claim: on the CPU path an item whose operation exceeds
    [timeout_per_item] is recorded as the entry [{error: "Timeout", item}]
    and nothing is raised. The code: the handler computes the item as
    [batch[futures.index(future)]], where [future] is the coroutine handed
    out by [as_completed] and not a member of [futures]; [ValueError] is
    raised, and a list the CPU path returns holds only what the pool
    workers returned, never a timeout entry. *)
Theorem C4_timeout_raises cfg w c params :
  (∀ item,
     timeout_per_item cfg <= finishes_after w (FirstPass c 0) →
     process_cpu cfg w c [item] params
     = Raise (mkExn ValueError "x is not in list"))
  ∧ (∀ batch results item,
       process_cpu cfg w c batch params = Return results →
       Fail {| error := "Timeout"; item := item; type := None |} ∉ results).
Proof.
  split.
  - intros item Hslow. by apply process_cpu_one_timeout.
  - intros batch results item Hret Hin.
    apply process_cpu_from_worker in Hret.
    rewrite Forall_forall in Hret. by apply Hret in Hin.
Qed.

Lemma C4_timeout_raises_witness :
  process_cpu cpu_config slow 0 [product "lamp"] None
  = Raise (mkExn ValueError "x is not in list").
Proof.
  apply (proj1 (C4_timeout_raises cpu_config slow 0 None)).
  simpl. lia.
Defined.

(** C7. The claim: [process_batch] cuts the input into consecutive
    chunks of [batch_size] items, the last one possibly shorter (250 items
    by 100 give chunks of 100, 100 and 50), and the successful and failed
    lists of the returned [BatchResult] hold together one entry per input
    item. The code: [_create_batches] cuts the input as said, and when the
    first pass and the retry are through the two lists hold one entry per
    item, all of them in [failed], the optimization of an item raising
    [TypeError]. But [process_batch] never returns them, whatever the pool
    and the GPU library do: the update of the metrics that precedes the
    [return] raises [AttributeError]. With a pool that works and chunks
    that stay on the CPU path this is how every call ends. *)
Theorem C7_chunks_but_no_result cfg (products : list Product) :
  0 < batch_size cfg →
  (∃ batches,
     _create_batches cfg products = Return batches ∧
     concat batches = products ∧
     len batches = (len products + batch_size cfg - 1) / batch_size cfg ∧
     ∀ k batch, batches !! k = Some batch →
       0 < len batch <= batch_size cfg ∧
       ((S k < length batches)%nat → len batch = batch_size cfg))
  ∧ (len products = 250 → batch_size cfg = 100 →
     ∃ b1 b2 b3,
       _create_batches cfg products = Return [b1; b2; b3] ∧
       len b1 = 100 ∧ len b2 = 100 ∧ len b3 = 50)
  ∧ (∀ w params batches t,
       process_batch_tally cfg w products params = Return (batches, t) →
       len (t_successful t) + len (t_failed t) = len products
       ∧ t_successful t = [])
  ∧ (∀ w params, returns (process_batch cfg w products params) = false)
  ∧ (∀ w params,
       semaphores_pass cfg →
       (enable_gpu cfg = false ∨ batch_size cfg <= 20) →
       (0 < recursion_limit w)%nat →
       (∀ c i, executor_failure w c i = None) →
       (∀ c i, finishes_after w (FirstPass c i) < timeout_per_item cfg) →
       (∃ batches t,
          process_batch_tally cfg w products params = Return (batches, t) ∧
          t_successful t = [] ∧ len (t_failed t) = len products)
       ∧ process_batch cfg w products params
         = Raise (mkExn AttributeError
                    "'coroutine' object has no attribute 'gauge'")).
Proof.
  intros Hb. split; [by apply _create_batches_spec|].
  split; [|split; [|split]].
  - intros Hn Hbs.
    rewrite _create_batches_pieces by done.
    rewrite Hn, Hbs. unfold len in Hn.
    change (chunk_count 250 100) with 3%nat.
    change (Z.to_nat 100) with 100%nat.
    eexists _, _, _. split; [reflexivity|].
    unfold len. rewrite !length_take, !length_drop. lia.
  - intros w params batches t Ht.
    pose proof (process_batch_tally_entries cfg w products params _ _ Hb Ht)
      as Hent.
    split; [unfold entries in Hent; unfold len; lia|].
    rewrite process_batch_tally_first_pass in Ht.
    destruct (_create_batches cfg products) as [bs|e]; [|done]. simpl in Ht.
    destruct (_process_batches_concurrent cfg w bs params) as [results|e]
      eqn:Hresults; [|done].
    simpl in Ht. injection Ht as _ <-.
    by rewrite (aggregate_all_fail results
                  (_process_batches_concurrent_failures _ _ _ _ _ Hresults)).
  - intros w params. apply process_batch_never_returns.
  - intros w params _ Hcpu Hdepth Hpool Hfast.
    destruct (process_batch_tally_returns cfg w products params
                Hb Hcpu Hdepth Hpool Hfast) as (batches & t & Ht & Hs & Hf).
    split.
    + exists batches, t. split; [done|]. split; [done|]. unfold len. lia.
    + by rewrite process_batch_raises, Ht.
Qed.

Lemma C7_chunks_but_no_result_witness :
  (∃ b1 b2 b3,
     _create_batches cpu_config (lamps 250) = Return [b1; b2; b3] ∧
     len b1 = 100 ∧ len b2 = 100 ∧ len b3 = 50)
  ∧ (∀ w params,
       returns (process_batch cpu_config w (lamps 250) params) = false)
  ∧ process_batch cpu_config calm (lamps 250) None
    = Raise (mkExn AttributeError "'coroutine' object has no attribute 'gauge'").
Proof.
  destruct (C7_chunks_but_no_result cpu_config (lamps 250) eq_refl)
    as (_ & Hchunks & _ & Hnever & Hrun).
  split; [by apply Hchunks|]. split; [exact Hnever|].
  apply (Hrun calm None).
  - split; simpl; lia.
  - by left.
  - simpl. lia.
  - reflexivity.
  - intros c i. simpl. lia.
Defined.


End BatchFacts.

(** ** [heapq] *)

Module HeapqFacts.

Import Heapq HeapqSpec.

Lemma parent_child (i : nat) : (0 < i)%nat → child (Nat.div2 (i - 1)) i.
Proof.
  intros Hi. unfold child.
  pose proof (Nat.div2_odd (i - 1)) as H.
  destruct (Nat.odd (i - 1)); simpl in H; lia.
Qed.

Lemma child_parent (p i : nat) : child p i → Nat.div2 (i - 1) = p ∧ (0 < i)%nat.
Proof.
  intros [-> | ->]; split; try lia.
  - replace (2 * p + 1 - 1)%nat with (2 * p)%nat by lia. apply Nat.div2_double.
  - replace (2 * p + 2 - 1)%nat with (S (2 * p)) by lia.
    apply Nat.div2_succ_double.
Qed.

(** Exchanging the values of two positions, written with a hole. *)
Lemma insert_swap_perm {A} (h : list A) (i j : nat) (x p : A) :
  h !! j = Some p → (i < length h)%nat →
  <[j := x]> (<[i := p]> h) ≡ₚ <[i := x]> h.
Proof.
  intros Hj Hi.
  assert (∀ (l : list A) k v, (k < length l)%nat → <[k := v]> l ≡ₚ v :: delete k l)
    as Hins.
  { intros l k v Hk.
    rewrite (delete_Permutation (<[k := v]> l) k v)
      by by apply list_lookup_insert_eq.
    f_equiv. rewrite !delete_take_drop.
    rewrite take_insert_ge by lia.
    rewrite drop_insert_lt by lia. done. }
  destruct (decide (i = j)) as [->|Hne].
  - by rewrite list_insert_insert_eq.
  - assert (j < length h)%nat as Hjlt by by eapply lookup_lt_Some.
    rewrite (Hins _ j x) by by rewrite length_insert.
    rewrite (Hins h i x) by done. f_equiv.
    apply (Permutation_cons_inv (a := p)).
    rewrite <- (delete_Permutation (<[i := p]> h) j p)
      by by rewrite list_lookup_insert_ne.
    by apply Hins.
Qed.

Section order.
Context {A : Type}.
Variables (lt : A → A → bool) (key : A → Z).
(** [<] compares a key. *)
Hypothesis lt_key : ∀ a b, lt a b = (key a <? key b).

Lemma is_heap_ordered (h : list A) : is_heap lt h ↔ ordered key h.
Proof.
  unfold is_heap, ordered. split.
  - intros H p i x y Hc Hp Hi.
    apply child_parent in Hc as [<- Hpos].
    specialize (H i x y Hpos Hp Hi). rewrite lt_key in H. lia.
  - intros H i x y Hpos Hp Hi. rewrite lt_key.
    specialize (H _ i x y (parent_child i Hpos) Hp Hi). lia.
Qed.

Lemma ordered_around_insert h pos v :
  ordered_around key h pos → ordered_around key (<[pos := v]> h) pos.
Proof.
  intros [Ha Hc]. split.
  - intros p i x y Hch Hp Hi.
    rewrite !list_lookup_insert_ne by done. by apply Ha.
  - intros g i x y Hg Hi.
    rewrite !list_lookup_insert_ne by (unfold child in *; lia).
    by apply Hc.
Qed.

Lemma fits_above_insert h pos v y :
  fits_above key h pos v → fits_above key (<[pos := y]> h) pos v.
Proof.
  intros H i z Hch. rewrite list_lookup_insert_ne by (unfold child in *; lia).
  by apply H.
Qed.

(** Filling the hole when nothing above it is larger. *)
Lemma fill_ordered h pos v :
  (pos < length h)%nat →
  ordered_around key h pos → fits_above key h pos v →
  (∀ g x, child g pos → h !! g = Some x → key x <= key v) →
  ordered key (<[pos := v]> h).
Proof.
  intros Hlen [Ha Hc] Hb Hup p i x y Hch Hp Hi.
  destruct (decide (i = pos)) as [->|Hipos].
  - rewrite list_lookup_insert_eq in Hi by done. injection Hi as <-.
    rewrite list_lookup_insert_ne in Hp by (unfold child in *; lia).
    by eapply Hup.
  - rewrite list_lookup_insert_ne in Hi by done.
    destruct (decide (p = pos)) as [->|Hppos].
    + rewrite list_lookup_insert_eq in Hp by done. injection Hp as <-.
      by eapply Hb.
    + rewrite list_lookup_insert_ne in Hp by done. by eapply Ha.
Qed.

(** [_siftdown]: the item climbs from [pos] to its place. *)
Lemma siftdown_loop_ordered turns h v pos :
  (pos <= turns)%nat → (pos < length h)%nat →
  ordered_around key h pos → fits_above key h pos v →
  ordered key (siftdown_loop lt turns h v 0 pos).
Proof.
  revert h pos. induction turns as [|turns IH]; intros h pos Hturns Hlen Hord Hfit.
  - simpl. apply fill_ordered; try done.
    intros g x Hg. unfold child in Hg. lia.
  - simpl. destruct (decide (0 < pos)%nat) as [Hpos|Hzero].
    + pose proof (parent_child pos Hpos) as Hpar.
      set (parentpos := Nat.div2 (pos - 1)) in *.
      assert (parentpos < pos)%nat as Hlt by (unfold child in Hpar; lia).
      destruct (h !! parentpos) as [parent|] eqn:Hparent.
      2:{ apply lookup_ge_None in Hparent. lia. }
      rewrite lt_key. destruct (Z.ltb_spec (key v) (key parent)) as [Hsmall|Hbig].
      * destruct Hord as [Ha Hc].
        apply IH; [lia | rewrite length_insert; lia | |].
        -- split.
           ++ intros p i x y Hch Hp Hi Hpx Hiy.
              destruct (decide (i = pos)) as [->|Hipos].
              { destruct (child_parent _ _ Hch) as [Hpp _].
                destruct (child_parent _ _ Hpar) as [Hpp' _]. congruence. }
              rewrite list_lookup_insert_ne in Hiy by done.
              destruct (decide (p = pos)) as [->|Hppos].
              ** rewrite list_lookup_insert_eq in Hpx by done.
                 injection Hpx as <-. by eapply (Hc parentpos i).
              ** rewrite list_lookup_insert_ne in Hpx by done.
                 by eapply Ha.
           ++ intros g i x y Hg Hi Hgx Hiy.
              rewrite list_lookup_insert_ne in Hgx by (unfold child in *; lia).
              assert (key x <= key parent) as Hxp.
              { eapply (Ha g parentpos); try done; unfold child in *; lia. }
              destruct (decide (i = pos)) as [->|Hipos].
              ** rewrite list_lookup_insert_eq in Hiy by done.
                 by injection Hiy as <-.
              ** rewrite list_lookup_insert_ne in Hiy by done.
                 etrans; [exact Hxp|].
                 eapply (Ha parentpos i); try done. lia.
        -- intros i y Hi Hiy.
           destruct (decide (i = pos)) as [->|Hipos].
           ++ rewrite list_lookup_insert_eq in Hiy by done.
              injection Hiy as <-. lia.
           ++ rewrite list_lookup_insert_ne in Hiy by done.
              assert (key parent <= key y); [|lia].
              eapply (Ha parentpos i); try done. lia.
      * apply fill_ordered; try done.
        intros g x Hg Hgx.
        destruct (child_parent _ _ Hg) as [Hgp _].
        fold parentpos in Hgp. subst g. congruence.
    + apply fill_ordered; try done.
      intros g x Hg. unfold child in Hg. lia.
Qed.

Lemma siftdown_loop_perm turns h v pos :
  (pos < length h)%nat →
  siftdown_loop lt turns h v 0 pos ≡ₚ <[pos := v]> h.
Proof.
  revert h pos. induction turns as [|turns IH]; intros h pos Hlen; simpl; [done|].
  destruct (decide (0 < pos)%nat) as [Hpos|]; [|done].
  destruct (h !! Nat.div2 (pos - 1)) as [parent|] eqn:Hparent; [|done].
  destruct (lt v parent); [|done].
  assert (Nat.div2 (pos - 1) < length h)%nat by by eapply lookup_lt_Some.
  rewrite IH by by rewrite length_insert.
  by apply insert_swap_perm.
Qed.

Lemma siftup_loop_S turns h pos :
  siftup_loop lt (S turns) h pos =
    if decide (2 * pos + 1 < length h)%nat then
      let childpos :=
        if bool_decide (2 * pos + 1 + 1 < length h)%nat
           && negb (lt_at lt h (2 * pos + 1) (2 * pos + 1 + 1))
        then (2 * pos + 1 + 1)%nat else (2 * pos + 1)%nat in
      match h !! childpos with
      | Some child => siftup_loop lt turns (<[pos := child]> h) childpos
      | None => (h, pos)
      end
    else (h, pos).
Proof. reflexivity. Qed.

(** The loop of [_siftup]: the hole goes down to a leaf, the smaller
    child moving up each time. *)
Lemma siftup_loop_spec turns h pos h' pos' :
  siftup_loop lt turns h pos = (h', pos') →
  (length h <= turns + pos)%nat → (pos < length h)%nat →
  ordered_around key h pos →
  length h' = length h ∧ (pos' < length h')%nat ∧
  (length h' <= 2 * pos' + 1)%nat ∧ ordered_around key h' pos' ∧
  ∀ v, <[pos' := v]> h' ≡ₚ <[pos := v]> h.
Proof.
  revert h pos.
  induction turns as [|turns IH]; intros h pos Hloop Hturns Hlen Hord.
  { simpl in Hturns. lia. }
  rewrite siftup_loop_S in Hloop. cbv zeta in Hloop.
  destruct (decide (2 * pos + 1 < length h)%nat) as [Hchild|Hleaf].
  2:{ injection Hloop as <- <-.
      split; [done|]. split; [done|]. split; [lia|]. by split. }
  set (left := (2 * pos + 1)%nat) in *.
  set (c := if bool_decide (left + 1 < length h)%nat
               && negb (lt_at lt h left (left + 1))
            then (left + 1)%nat else left) in *.
  assert (child pos c ∧ (c < length h)%nat ∧
          ∀ i x y, child pos i → i ≠ c → h !! c = Some x → h !! i = Some y →
                   key x <= key y) as (Hc & Hclen & Hsmall).
  { unfold c. destruct (bool_decide_reflect (left + 1 < length h)%nat)
      as [Hright|Hnoright]; simpl.
    - unfold lt_at.
      destruct (h !! left) as [l|] eqn:Hl;
        [|apply lookup_ge_None in Hl; lia].
      destruct (h !! (left + 1)%nat) as [r|] eqn:Hr;
        [|apply lookup_ge_None in Hr; lia].
      rewrite lt_key. destruct (Z.ltb_spec (key l) (key r)); simpl.
      + split; [left; lia|]. split; [lia|].
        intros i x y [->| ->] Hne Hx Hy; [lia|].
        fold left in Hx. replace (2 * pos + 2)%nat with (left + 1)%nat in Hy by lia.
        assert (x = l) by congruence. assert (y = r) by congruence. subst. lia.
      + split; [right; lia|]. split; [lia|].
        intros i x y [->| ->] Hne Hx Hy; [|lia].
        fold left in Hy.
        assert (x = r) by congruence. assert (y = l) by congruence. subst. lia.
    - split; [left; lia|]. split; [lia|].
      intros i x y [->| ->] Hne Hx Hy; [lia|].
      apply lookup_lt_Some in Hy. lia. }
  destruct (h !! c) as [cv|] eqn:Hcv;
    [|apply lookup_ge_None in Hcv; lia].
  assert (pos < c)%nat as Hposc by (unfold child in Hc; lia).
  destruct Hord as [Ha Hg].
  apply IH in Hloop as (Hl' & Hp' & Hleaf' & Hord' & Hperm');
    [| rewrite length_insert; lia | rewrite length_insert; lia |].
  - rewrite length_insert in Hl'.
    split; [done|]. split; [done|]. split; [done|]. split; [done|].
    intros v. rewrite Hperm'. by apply insert_swap_perm.
  - split.
    + intros p i x y Hch Hp Hi Hpx Hiy.
      destruct (decide (i = pos)) as [->|Hipos].
      * rewrite list_lookup_insert_eq in Hiy by done. injection Hiy as <-.
        rewrite list_lookup_insert_ne in Hpx by (unfold child in *; lia).
        by eapply (Hg p c).
      * rewrite list_lookup_insert_ne in Hiy by done.
        destruct (decide (p = pos)) as [->|Hppos].
        -- rewrite list_lookup_insert_eq in Hpx by done. injection Hpx as <-.
           by eapply Hsmall.
        -- rewrite list_lookup_insert_ne in Hpx by done. by eapply Ha.
    + intros g i x y Hgc Hci Hgx Hiy.
      assert (g = pos) as -> by (unfold child in *; lia).
      rewrite list_lookup_insert_eq in Hgx by done. injection Hgx as <-.
      rewrite list_lookup_insert_ne in Hiy by (unfold child in *; lia).
      eapply (Ha c i); try done; unfold child in *; lia.
Qed.

Lemma _siftdown_ordered h pos v :
  h !! pos = Some v → ordered_around key h pos → fits_above key h pos v →
  ordered key (_siftdown lt h 0 pos).
Proof.
  intros Hv Hord Hfit. unfold _siftdown. rewrite Hv.
  apply siftdown_loop_ordered; try done. by eapply lookup_lt_Some.
Qed.

Lemma _siftdown_perm h pos : _siftdown lt h 0 pos ≡ₚ h.
Proof.
  unfold _siftdown. destruct (h !! pos) as [v|] eqn:Hv; [|done].
  rewrite siftdown_loop_perm by by eapply lookup_lt_Some.
  by rewrite list_insert_id.
Qed.

(** [_siftup] from the root, the rest of the heap being in order. *)
Lemma _siftup_ordered h :
  (0 < length h)%nat → ordered_around key h 0 → ordered key (_siftup lt h 0).
Proof.
  intros Hlen Hord. unfold _siftup.
  destruct (h !! 0%nat) as [v|] eqn:Hv; [|apply lookup_ge_None in Hv; lia].
  destruct (siftup_loop lt (length h) h 0) as [h' pos'] eqn:Hloop.
  apply siftup_loop_spec in Hloop as (Hl' & Hp' & Hleaf & Hord' & _);
    [|lia|done|done].
  apply _siftdown_ordered with (v := v).
  - by apply list_lookup_insert_eq.
  - by apply ordered_around_insert.
  - intros i y Hch Hy. apply lookup_lt_Some in Hy.
    rewrite length_insert in Hy. unfold child in Hch. lia.
Qed.

Lemma siftup_loop_perm turns h pos h' pos' v :
  siftup_loop lt turns h pos = (h', pos') → (pos < length h)%nat →
  <[pos' := v]> h' ≡ₚ <[pos := v]> h.
Proof.
  revert h pos.
  induction turns as [|turns IH]; intros h pos Hloop Hlen.
  { simpl in Hloop. by injection Hloop as <- <-. }
  rewrite siftup_loop_S in Hloop. cbv zeta in Hloop.
  destruct (decide _) as [Hchild|]; [|by injection Hloop as <- <-].
  match type of Hloop with
  | context [h !! ?c] => destruct (h !! c) as [cv|] eqn:Hcv
  end; [|by injection Hloop as <- <-].
  apply IH in Hloop; [|rewrite length_insert; by eapply lookup_lt_Some].
  rewrite Hloop. by apply insert_swap_perm.
Qed.

Lemma _siftup_perm h : _siftup lt h 0 ≡ₚ h.
Proof.
  unfold _siftup. destruct (h !! 0%nat) as [v|] eqn:Hv; [|done].
  assert (0 < length h)%nat as Hlen by by eapply lookup_lt_Some.
  destruct (siftup_loop lt (length h) h 0) as [h' pos'] eqn:Hloop.
  rewrite _siftdown_perm, (siftup_loop_perm _ _ _ _ _ v Hloop Hlen).
  by rewrite list_insert_id.
Qed.

(** [heappush] *)
Lemma heappush_ordered heap item :
  ordered key heap → ordered key (heappush lt heap item).
Proof.
  intros Hheap. unfold heappush.
  apply _siftdown_ordered with (v := item).
  - by rewrite lookup_app_r, Nat.sub_diag by lia.
  - split.
    + intros p i x y Hch Hp Hi Hpx Hiy.
      apply lookup_lt_Some in Hpx as Hplt, Hiy as Hilt.
      rewrite length_app in Hplt, Hilt. simpl in Hplt, Hilt.
      rewrite lookup_app_l in Hpx, Hiy by lia. by eapply Hheap.
    + intros g i x y Hg Hi _ Hiy. apply lookup_lt_Some in Hiy.
      rewrite length_app in Hiy. simpl in Hiy. unfold child in *. lia.
  - intros i y Hi Hiy. apply lookup_lt_Some in Hiy.
    rewrite length_app in Hiy. simpl in Hiy. unfold child in *. lia.
Qed.

Lemma heappush_perm heap item : heappush lt heap item ≡ₚ item :: heap.
Proof.
  unfold heappush. rewrite _siftdown_perm.
  by rewrite Permutation_app_comm.
Qed.

(** [heappop] gives the item at position 0, and keeps the others. *)
Lemma heappop_Return heap x heap' :
  heappop lt heap = Return (x, heap') →
  heap !! 0%nat = Some x ∧ heap ≡ₚ x :: heap'.
Proof.
  unfold heappop. destruct (last heap) as [lastelt|] eqn:Hlast; [|done].
  apply last_Some in Hlast as [front ->].
  rewrite length_app. simpl.
  rewrite take_app_length' by lia.
  destruct front as [|returnitem rest].
  - intros [= <- <-]. done.
  - intros [= <- <-]. split; [done|].
    rewrite _siftup_perm. simpl. f_equiv.
    apply (Permutation_app_comm rest [lastelt]).
Qed.

Lemma heappop_nonempty heap :
  heap ≠ [] → ∃ x heap', heappop lt heap = Return (x, heap').
Proof.
  intros Hne. unfold heappop.
  destruct (last heap) as [lastelt|] eqn:Hlast.
  - destruct (take _ heap); by eexists _, _.
  - apply last_None in Hlast. done.
Qed.

Lemma ordered_take heap n : ordered key heap → ordered key (take n heap).
Proof.
  intros H p i x y Hch Hp Hi.
  apply lookup_take_Some in Hp as [Hp _], Hi as [Hi _]. by eapply H.
Qed.

Lemma heappop_ordered heap x heap' :
  ordered key heap → heappop lt heap = Return (x, heap') → ordered key heap'.
Proof.
  intros Hheap. unfold heappop.
  destruct (last heap) as [lastelt|] eqn:Hlast; [|done].
  pose proof (ordered_take heap (length heap - 1) Hheap) as Hfront.
  destruct (take (length heap - 1) heap) as [|returnitem rest] eqn:Htake.
  - by intros [= <- <-].
  - intros [= <- <-]. apply _siftup_ordered.
    + simpl. lia.
    + split.
      * intros p i a b Hch Hp Hi.
        destruct p as [|p]; [done|]. destruct i as [|i]; [done|].
        simpl. intros Hpa Hib. by eapply (Hfront (S p) (S i)).
      * intros g i a b Hg. unfold child in Hg. lia.
Qed.

(** In a heap no item is smaller than the one at position 0. *)
Lemma ordered_root heap x y :
  ordered key heap → heap !! 0%nat = Some x → y ∈ heap → key x <= key y.
Proof.
  intros Hheap Hroot Hin. apply list_elem_of_lookup in Hin as [i Hi].
  revert y Hi. induction i as [i IH] using lt_wf_ind. intros y Hi.
  destruct (decide (i = 0)%nat) as [->|Hpos].
  - assert (x = y) by congruence. subst. lia.
  - pose proof (parent_child i ltac:(lia)) as Hch.
    set (p := Nat.div2 (i - 1)) in *.
    assert (p < i)%nat as Hlt by (unfold child in Hch; lia).
    destruct (heap !! p) as [z|] eqn:Hz.
    + etrans; [by eapply (IH p)|]. by eapply Hheap.
    + apply lookup_ge_None in Hz. apply lookup_lt_Some in Hi. lia.
Qed.

End order.
End HeapqFacts.

(** ** The publishing queue *)

Module QueueFacts.

Import Heapq HeapqSpec HeapqFacts Queue QueueSpec QueueExamples.

Lemma item_lt_key (a b : QueueItem) : item_lt a b = (priority a <? priority b).
Proof. reflexivity. Qed.

Lemma inv_init max_concurrent clock : inv (init max_concurrent clock).
Proof.
  split; simpl.
  - intros p i x y _ Hp. by rewrite lookup_nil in Hp.
  - intros item Hin. by apply elem_of_nil in Hin.
  - intros tid item Hin. by rewrite lookup_empty in Hin.
  - intros k now Hk. by rewrite lookup_nil in Hk.
  - intros item t Hin. by apply elem_of_nil in Hin.
Qed.

Lemma heappush_elem (q : list QueueItem) item x :
  x ∈ heappush item_lt q item ↔ x = item ∨ x ∈ q.
Proof. by rewrite (heappush_perm item_lt q item), elem_of_cons. Qed.

(** [dispatch] on a queue that is not empty: the head goes to a task. *)
Lemma dispatch_head s head rest :
  queue s = head :: rest →
  ∃ queue',
    heappop item_lt (queue s) = Return (head, queue') ∧
    queue s ≡ₚ head :: queue' ∧
    queue (dispatch s) = queue' ∧
    active_tasks (dispatch s)
      = <[(marketplace head, oid head) := head]> (active_tasks s) ∧
    dispatched (dispatch s) = dispatched s ++ [(head, clock s)] ∧
    loops (dispatch s) = loops s ∧ clock (dispatch s) = clock s.
Proof.
  intros Hq.
  destruct (heappop_nonempty item_lt (queue s)) as (x & queue' & Hpop);
    [by rewrite Hq|].
  destruct (heappop_Return item_lt _ _ _ Hpop) as [Hroot Hperm].
  rewrite Hq in Hroot. simpl in Hroot. injection Hroot as <-.
  exists queue'. unfold dispatch. rewrite Hpop. done.
Qed.

Lemma inv_dispatch s head rest now :
  inv s → queue s = head :: rest → scheduled_at head <= now → now <= clock s →
  inv (dispatch s).
Proof.
  intros [Hheap Hqueue Hactive Hnow Hdisp] Hq Hdue Hclock.
  destruct (dispatch_head s head rest Hq)
    as (queue' & Hpop & Hperm & Hq' & Hact & Hlog & Hloops & Hclk).
  assert (head ∈ queue s) as Hin by (rewrite Hq; apply list_elem_of_here).
  split; rewrite ?Hq', ?Hact, ?Hlog, ?Hloops, ?Hclk.
  - eapply heappop_ordered; [apply item_lt_key | exact Hheap | exact Hpop].
  - intros item Hitem. apply Hqueue. rewrite Hperm.
    by apply list_elem_of_further.
  - intros tid item Hl.
    apply lookup_insert_Some in Hl as [[_ <-]|[_ Hl]];
      [by apply Hqueue | by eapply Hactive].
  - apply Hnow.
  - intros item t Hl.
    apply elem_of_app in Hl as [Hl|Hl]; [by apply Hdisp|].
    apply list_elem_of_singleton in Hl. injection Hl as -> ->.
    split; [lia | by apply Hqueue].
Qed.

Lemma heappush_queue_ordered q item :
  queue_ordered q → queue_ordered (heappush item_lt q item).
Proof. apply (heappush_ordered item_lt priority item_lt_key). Qed.

Lemma inv_add l m p t s : inv s → inv (add_to_queue l m p t s).
Proof.
  intros [Hheap Hqueue Hactive Hnow Hdisp]. split; simpl; try done.
  - by apply heappush_queue_ordered.
  - intros item Hin. apply heappush_elem in Hin as [->|Hin]; [|by apply Hqueue].
    unfold retries_bounded. simpl. lia.
  - intros k now Hk. apply (Hnow k).
    destruct (_running s); [done|].
    apply lookup_app_Some in Hk as [Hk|[_ Hk]]; [done|].
    destruct (k - length (loops s))%nat; simpl in Hk; [done|].
    by rewrite lookup_nil in Hk.
Qed.

(** What [_publish_item] leaves in the queue. *)
Lemma _publish_item_queue item outcome s :
  let s' := (_publish_item item outcome s).2 in
  (queue s' = queue s ∨
   ∃ e publisher,
     outcome = Raise e ∧
     _publishers s !! marketplace item = Some publisher ∧
     retries item < 3 ∧
     queue s' =
       heappush item_lt (queue s)
         {| oid := oid item; priority := priority item;
            scheduled_at := clock s + minutes (5 * (retries item + 1));
            listing := listing item; marketplace := marketplace item;
            retries := retries item + 1 |})
  ∧ active_tasks s' = active_tasks s ∧ loops s' = loops s
  ∧ clock s' = clock s ∧ dispatched s' = dispatched s
  ∧ returned s' = returned s.
Proof.
  unfold _publish_item, _get_publisher.
  destruct (_publishers s !! marketplace item) as [publisher|] eqn:Hpub;
    [|simpl; by auto 10].
  destruct outcome as [result|e]; [simpl; by auto 10|].
  destruct (Z.ltb_spec (retries item) 3); simpl; [|by auto 10].
  split; [|done]. right. by exists e, publisher.
Qed.

Lemma inv_task_done tid outcome s : inv s → inv (task_done tid outcome s).
Proof.
  intros Hinv. unfold task_done.
  destruct (active_tasks s !! tid) as [item|] eqn:Htid; [|done].
  pose proof (_publish_item_queue item outcome s) as Hpub.
  destruct (_publish_item item outcome s) as [result s'].
  simpl in Hpub. destruct Hpub as (Hq & Hact & Hloops & Hclk & Hlog & _).
  destruct Hinv as [Hheap Hqueue Hactive Hnow Hdisp].
  pose proof (Hactive tid item Htid) as Hitem.
  split; simpl; rewrite ?Hact, ?Hloops, ?Hclk, ?Hlog; try done.
  - destruct Hq as [->|(e & publisher & _ & _ & _ & ->)]; [done|].
    by apply heappush_queue_ordered.
  - destruct Hq as [->|(e & publisher & _ & _ & Hlt & ->)]; [done|].
    intros x Hin. apply heappush_elem in Hin as [->|Hin]; [|by apply Hqueue].
    unfold retries_bounded in *. simpl. lia.
  - intros tid' x Hl. apply lookup_delete_Some in Hl as [_ Hl].
    by eapply Hactive.
Qed.

Lemma inv_loop_step pc s k :
  inv s → loops s !! k = Some pc →
  let '(s', pc') := loop_step pc s in
  inv s' ∧ loops s' = loops s ∧
  (∀ now, pc' = InnerTest now → now <= clock s').
Proof.
  intros Hinv Hk. destruct pc as [| |now|]; simpl.
  - split; [by destruct Hinv|]. by split.
  - destruct (_ || _).
    + split; [done|]. split; [done|]. intros now [= <-]. lia.
    + split; [by destruct Hinv|]. by split.
  - pose proof (inv_now s Hinv k now Hk) as Hnow.
    destruct (queue s) as [|head rest] eqn:Hq;
      [split; [done|]; split; [done|]; by intros ? [=]|].
    destruct (_ <? _);
      [|split; [done|]; split; [done|]; by intros ? [=]].
    destruct (Z.leb_spec (scheduled_at head) now) as [Hdue|].
    + destruct (dispatch_head s head rest Hq)
        as (_ & _ & _ & _ & _ & _ & Hloops & Hclk).
      split; [by eapply inv_dispatch|]. split; [done|].
      intros now' [= <-]. lia.
    + split; [done|]. split; [done|]. intros now' [= <-]. lia.
  - split; [done|]. split; [done|]. by intros ? [=].
Qed.

Lemma inv_set_loops s l :
  inv s → (∀ k now, l !! k = Some (InnerTest now) → now <= clock s) →
  inv (set_loops l s).
Proof. intros [Hheap Hqueue Hactive Hnow Hdisp] Hl. by split. Qed.

Lemma inv_step s ev : inv s → inv (step s ev).
Proof.
  intros Hinv. destruct ev as [m p|l m p t|k|tid o|dt| | |]; simpl.
  - by destruct Hinv.
  - by apply inv_add.
  - destruct (loops s !! k) as [pc|] eqn:Hk; [|done].
    pose proof (inv_loop_step pc s k Hinv Hk) as Hstep.
    destruct (loop_step pc s) as [s' pc'].
    destruct Hstep as (Hinv' & Hloops & Hpc).
    apply inv_set_loops; [done|].
    intros j now Hj. apply list_lookup_insert_Some in Hj
      as [(-> & Heq & _)|[_ Hj]]; [by apply Hpc|].
    by apply (inv_now s' Hinv' j).
  - by apply inv_task_done.
  - destruct Hinv as [Hheap Hqueue Hactive Hnow Hdisp].
    split; simpl; try done.
    intros k now Hk. apply Hnow in Hk. lia.
  - destruct Hinv as [Hheap Hqueue Hactive Hnow Hdisp].
    split; simpl; try done.
    intros item Hin. by apply elem_of_nil in Hin.
  - by destruct Hinv.
  - destruct (_ && _); [|done].
    apply inv_set_loops; [done|].
    intros k now Hk.
    apply lookup_app_Some in Hk as [Hk|[_ Hk]]; [by apply (inv_now s Hinv k)|].
    destruct (k - length (loops s))%nat; simpl in Hk; [done|].
    by rewrite lookup_nil in Hk.
Qed.

Lemma run_snoc s evs ev : run s (evs ++ [ev]) = step (run s evs) ev.
Proof. unfold run. by rewrite fold_left_app. Qed.

Lemma inv_run s evs : inv s → inv (run s evs).
Proof.
  intros Hinv. induction evs as [|ev evs IH] using rev_ind; [done|].
  rewrite run_snoc. by apply inv_step.
Qed.

(** What one step does to the record of dispatches: nothing, the queue
    keeping its items unless it is cleared; or one item is handed to a
    task, an item of the queue that no other item precedes. *)
Lemma step_dispatched s ev :
  inv s →
  (dispatched (step s ev) = dispatched s ∧
   (ev ≠ EvClear → ∀ a, a ∈ queue s → a ∈ queue (step s ev)))
  ∨ (∃ b, dispatched (step s ev) = dispatched s ++ [(b, clock s)] ∧
          queue s ≡ₚ b :: queue (step s ev) ∧
          ∀ a, a ∈ queue s → priority b <= priority a).
Proof.
  intros Hinv. destruct ev as [m p|l m p t|k|tid o|dt| | |]; simpl;
    try (left; split; [done|]; by intros).
  - left. split; [done|]. intros _ a Ha. apply heappush_elem. by right.
  - destruct (loops s !! k) as [pc|] eqn:Hk; [|left; by split].
    destruct pc as [| |now|]; simpl; try (left; by split).
    + destruct (_ || _); simpl; left; by split.
    + destruct (queue s) as [|head rest] eqn:Hq;
        [left; split; [done|]; intros _ ??; simpl; by rewrite Hq|].
      destruct (_ <? _);
        [|left; split; [done|]; intros _ ??; simpl; by rewrite Hq].
      destruct (_ <=? _);
        [|left; split; [done|]; intros _ ??; simpl; by rewrite Hq].
      destruct (dispatch_head s head rest Hq)
        as (queue' & Hpop & Hperm & Hq' & _ & Hlog & _ & _).
      right. exists head. simpl. rewrite Hlog, Hq', <- Hq.
      split; [done|]. split; [done|].
      intros a Ha.
      eapply (ordered_root priority (queue s)); [apply Hinv | by rewrite Hq | done].
  - unfold task_done.
    destruct (active_tasks s !! tid) as [item|] eqn:Htid; [|left; by split].
    pose proof (_publish_item_queue item o s) as Hpub.
    destruct (_publish_item item o s) as [result s'].
    simpl in Hpub. destruct Hpub as (Hq & _ & _ & _ & Hlog & _).
    left. simpl. split; [done|]. intros _ a Ha.
    destruct Hq as [->|(e & publisher & _ & _ & _ & ->)]; [done|].
    apply heappush_elem. by right.
  - destruct (_ && _); left; by split.
Qed.

(** *** The claims on the publishing queue *)

(** C5. Along every sequence of events no item, queued or being
    published, has more than 3 retries; and when the publication of an
    item that has used its 3 retries fails again, [_publish_item] returns
    a result with status FAILED and the queue is left as it was: the item
    is not inserted again. *)
Theorem C5_retries_bounded max_concurrent clock0 evs :
  let s := run (init max_concurrent clock0) evs in
  (∀ item, item ∈ queue s → retries item <= 3)
  ∧ (∀ tid item, active_tasks s !! tid = Some item → retries item <= 3)
  ∧ (∀ tid item e,
       active_tasks s !! tid = Some item → 3 <= retries item →
       let s' := step s (EvTaskDone tid (Raise e)) in
       queue s' = queue s ∧
       ∃ result, returned s' = returned s ++ [(oid item, result)] ∧
                 status result = FAILED).
Proof.
  pose proof (inv_run (init max_concurrent clock0) evs (inv_init _ _)) as Hinv.
  cbv zeta. split; [|split].
  - intros item Hin. by apply (inv_queue _ Hinv).
  - intros tid item Hin. by apply (inv_active _ Hinv) in Hin as [_ ?].
  - intros tid item e Htid Hexhausted. simpl. unfold task_done.
    rewrite Htid. unfold _publish_item, _get_publisher.
    destruct (_publishers _ !! marketplace item); simpl.
    + destruct (Z.ltb_spec (retries item) 3); [lia|]. simpl.
      split; [done|]. by eexists.
    + split; [done|]. by eexists.
Qed.

Lemma C5_retries_bounded_witness :
  let s := run (init 5 0) three_retries in
  let s' := step s (EvTaskDone ("ebay", 0%nat) network_error) in
  queue s' = queue s ∧
  ∃ result, returned s' = returned s ++ [(0%nat, result)] ∧
            status result = FAILED.
Proof.
  apply (proj2 (proj2 (C5_retries_bounded 5 0 three_retries))
           ("ebay", 0%nat) (lamp_item 3 1800000000)).
  - vm_compute. reflexivity.
  - simpl. lia.
Defined.



(** C8. Two items are in the queue together, the first with the smaller
    priority value. Then, as long as the queue is not cleared, the second
    is handed to a publish task only after the first, whatever the order
    in which they were added. *)
Theorem C8_priority_order max_concurrent clock0 evs1 evs2 a b :
  let s1 := run (init max_concurrent clock0) evs1 in
  let s2 := run s1 evs2 in
  a ∈ queue s1 → b ∈ queue s1 → priority a < priority b →
  Forall (λ ev, ev ≠ EvClear) evs2 →
  ∀ j t, dispatched s2 !! j = Some (b, t) →
         (length (dispatched s1) <= j)%nat →
         ∃ i t', (length (dispatched s1) <= i < j)%nat ∧
                 dispatched s2 !! i = Some (a, t').
Proof.
  cbv zeta. intros Ha Hb Hprio Hclear.
  set (s1 := run (init max_concurrent clock0) evs1) in *.
  assert (inv s1) as Hinv1 by apply inv_run, inv_init.
  set (n := length (dispatched s1)).
  assert ((n <= length (dispatched (run s1 evs2)))%nat ∧
          ((a ∈ queue (run s1 evs2) ∧
            ∀ j t, dispatched (run s1 evs2) !! j = Some (b, t) → (j < n)%nat)
           ∨ ∃ i t', (n <= i)%nat ∧
                     dispatched (run s1 evs2) !! i = Some (a, t') ∧
                     ∀ j t, dispatched (run s1 evs2) !! j = Some (b, t) →
                            (n <= j)%nat → (i < j)%nat)) as [_ Hcases].
  { induction evs2 as [|ev evs2 IH] using rev_ind.
    - simpl. split; [done|]. left. split; [done|].
      intros j t Hj. by eapply lookup_lt_Some.
    - apply Forall_app in Hclear as [Hclear Hev].
      rewrite Forall_singleton in Hev.
      destruct (IH Hclear) as [Hmono Hcases]. clear IH.
      rewrite run_snoc.
      set (s2 := run s1 evs2) in *.
      assert (inv s2) as Hinv2 by by apply inv_run.
      destruct (step_dispatched s2 ev Hinv2)
        as [[Hlog Hkeep]|(x & Hlog & Hperm & Hmin)]; rewrite Hlog.
      + split; [done|].
        destruct Hcases as [[Hin Hnone]|Hdone]; [left | by right].
        split; [by apply Hkeep | done].
      + split; [rewrite length_app; lia|].
        destruct Hcases as [[Hin Hnone]|(i & t' & Hi & Hia & Hlater)].
        * assert (x ≠ b) as Hxb.
          { intros ->. specialize (Hmin a Hin). lia. }
          rewrite Hperm in Hin. apply elem_of_cons in Hin as [->|Hin].
          -- right. exists (length (dispatched s2)), (clock s2).
             split; [done|]. split.
             { by rewrite lookup_app_r, Nat.sub_diag by lia. }
             intros j t Hj Hnj.
             apply lookup_app_Some in Hj as [Hj|[Hlen Hj]].
             ++ apply Hnone in Hj. lia.
             ++ destruct (j - length (dispatched s2))%nat; simpl in Hj;
                  [congruence | by rewrite lookup_nil in Hj].
          -- left. split; [done|]. intros j t Hj.
             apply lookup_app_Some in Hj as [Hj|[Hlen Hj]]; [by eapply Hnone|].
             destruct (j - length (dispatched s2))%nat; simpl in Hj;
               [congruence | by rewrite lookup_nil in Hj].
        * right. exists i, t'. split; [done|].
          apply lookup_lt_Some in Hia as Hilt.
          split; [by rewrite lookup_app_l|].
          intros j t Hj Hnj.
          apply lookup_app_Some in Hj as [Hj|[Hlen Hj]]; [by eapply Hlater|].
          lia. }
  intros j t Hj Hnj.
  destruct Hcases as [[_ Hnone]|(i & t' & Hi & Hia & Hlater)].
  - apply Hnone in Hj. lia.
  - exists i, t'. split; [|done]. split; [done|]. by eapply Hlater.
Qed.

Lemma C8_priority_order_witness :
  let s1 := run (init 5 0) two_added in
  let s2 := run s1 (loop_turn 0 ++ [EvLoop 0]) in
  ∃ i t', (length (dispatched s1) <= i < 1)%nat ∧
          dispatched s2 !! i = Some (urgent_item, t').
Proof.
  apply (C8_priority_order 5 0 two_added (loop_turn 0 ++ [EvLoop 0])
           urgent_item normal_item) with (t := 0).
  - apply list_elem_of_In. vm_compute. auto.
  - apply list_elem_of_In. vm_compute. auto.
  - reflexivity.
  - repeat constructor; discriminate.
  - vm_compute. reflexivity.
  - vm_compute. lia.
Defined.



End QueueFacts.

(** ** More on the batch processor *)

Module BatchMoreFacts.
Import Batch BatchSpec BatchExamples PyFacts BatchFacts.

(** *** What [process_batch] gives *)



(** *** Degenerate batch sizes *)

Lemma process_batch_zero_batch_size_eq cfg w products params :
  batch_size cfg = 0 →
  process_batch cfg w products params
  = Raise (mkExn ValueError "range() arg 3 must not be zero").
Proof.
  intros Hz. rewrite process_batch_raises.
  unfold process_batch_tally, _create_batches, range. by rewrite Hz.
Qed.

Lemma process_batch_negative_eq cfg w products params :
  batch_size cfg < 0 →
  _create_batches cfg products = Return []
  ∧ process_batch_tally cfg w products params
    = Return ([], mkTally [] [] 0 0)
  ∧ process_batch cfg w products params
    = Raise (mkExn AttributeError
               "'coroutine' object has no attribute 'gauge'").
Proof.
  intros Hneg.
  assert (_create_batches cfg products = Return []) as Hb.
  { unfold _create_batches, range, range_len.
    destruct (Z.eqb_spec (batch_size cfg) 0); [lia|].
    destruct (Z.ltb_spec 0 (batch_size cfg)); [lia|].
    destruct (Z.ltb_spec (len products) 0) as [Hl|_];
      [pose proof (len_nonneg products); lia|].
    reflexivity. }
  assert (process_batch_tally cfg w products params
          = Return ([], mkTally [] [] 0 0)) as Ht.
  { by rewrite process_batch_tally_first_pass, Hb. }
  split; [done|]. split; [done|].
  by rewrite process_batch_raises, Ht.
Qed.

(** X2. With [batch_size = 0] every call of [process_batch] raises the
    [ValueError] of [range], before any item is looked at. *)
Theorem process_batch_zero_batch_size cfg w products params :
  batch_size cfg = 0 →
  process_batch cfg w products params
  = Raise (mkExn ValueError "range() arg 3 must not be zero").
Proof. apply process_batch_zero_batch_size_eq. Qed.

Lemma process_batch_zero_batch_size_witness :
  process_batch (mkBatchConfig 0 4 4 false 5000000 true 1000) calm
                three_products None
  = Raise (mkExn ValueError "range() arg 3 must not be zero").
Proof. by apply process_batch_zero_batch_size. Defined.

(** X3. A negative [batch_size] is not refused. [range] gives no start, so
    that no chunk is made and no product is looked at: the two lists stay
    empty, and the call ends at the update of the metrics, with
    [AttributeError]. *)
Theorem process_batch_negative_batch_size cfg w products params :
  batch_size cfg < 0 →
  semaphores_pass cfg →
  _create_batches cfg products = Return []
  ∧ process_batch_tally cfg w products params
    = Return ([], mkTally [] [] 0 0)
  ∧ process_batch cfg w products params
    = Raise (mkExn AttributeError
               "'coroutine' object has no attribute 'gauge'").
Proof. intros Hneg _. by apply process_batch_negative_eq. Qed.

Lemma process_batch_negative_batch_size_witness :
  process_batch (mkBatchConfig (-1) 4 4 false 5000000 true 1000) calm
                three_products None
  = Raise (mkExn AttributeError "'coroutine' object has no attribute 'gauge'").
Proof.
  apply (process_batch_negative_batch_size
           (mkBatchConfig (-1) 4 4 false 5000000 true 1000) calm
           three_products None); [simpl; lia | split; simpl; lia].
Defined.

(** X4. On the empty list no chunk is made and both lists stay empty,
    yet no [BatchResult] without entries is returned: the update of the
    metrics raises [AttributeError]. (With [batch_size = 0] the call ends
    before, as in X2.) Nothing here depends on the pool or on the GPU
    library. *)
Theorem process_batch_empty cfg w params :
  batch_size cfg ≠ 0 →
  semaphores_pass cfg →
  process_batch_tally cfg w [] params = Return ([], mkTally [] [] 0 0)
  ∧ process_batch cfg w [] params
    = Raise (mkExn AttributeError
               "'coroutine' object has no attribute 'gauge'").
Proof.
  intros Hnz _.
  assert (process_batch_tally cfg w [] params
          = Return ([], mkTally [] [] 0 0)) as Ht.
  { rewrite process_batch_tally_first_pass.
    unfold _create_batches, range, range_len.
    destruct (Z.eqb_spec (batch_size cfg) 0); [done|].
    change (len []) with 0. rewrite Z.ltb_irrefl.
    by destruct (0 <? batch_size cfg). }
  split; [done|]. by rewrite process_batch_raises, Ht.
Qed.

Lemma process_batch_empty_witness :
  process_batch (default_config 4) calm [] None
  = Raise (mkExn AttributeError "'coroutine' object has no attribute 'gauge'").
Proof.
  apply (process_batch_empty (default_config 4) calm None).
  - simpl. lia.
  - split; simpl; lia.
Defined.



(** *** The stream *)

(** X6. [process_stream] stops at the first window on which
    [process_batch] raises: every flush but the last has returned, and the
    exception the consumer gets, if any, is that of the last flush. *)
Theorem process_stream_stops_at_error cfg worlds items params :
  let run := process_stream cfg worlds items params in
  (∀ n f, flushes run !! n = Some f → (S n < length (flushes run))%nat →
          returns f.2 = true)
  ∧ stream_error run =
      match last (flushes run) with
      | Some (_, Raise e) => Some e
      | _ => None
      end.
Proof.
  cbv zeta. unfold process_stream.
  assert (∀ items window run,
    Forall (λ f, returns f.2 = true) (flushes run) → stream_error run = None →
    let run' := stream_loop cfg worlds params items window run in
    (∀ n f, flushes run' !! n = Some f → (S n < length (flushes run'))%nat →
            returns f.2 = true)
    ∧ stream_error run' =
        match last (flushes run') with
        | Some (_, Raise e) => Some e
        | _ => None
        end) as Hgen.
  { assert (∀ window run,
      Forall (λ f, returns f.2 = true) (flushes run) →
      let run' := flush cfg worlds params window run in
      (∀ n f, flushes run' !! n = Some f → (S n < length (flushes run'))%nat →
              returns f.2 = true)
      ∧ stream_error run' =
          match last (flushes run') with
          | Some (_, Raise e) => Some e
          | _ => None
          end
      ∧ (stream_error run' = None →
         Forall (λ f, returns f.2 = true) (flushes run'))) as Hflush.
    { intros window run Hall. cbv zeta. simpl. split; [|split].
      - intros n f Hn Hlt. rewrite length_app in Hlt. simpl in Hlt.
        rewrite lookup_app_l in Hn by lia.
        rewrite Forall_forall in Hall. apply Hall.
        apply list_elem_of_lookup. by exists n.
      - rewrite last_snoc. by destruct (process_batch _ _ _ _).
      - intros Hnone. apply Forall_app. split; [done|].
        apply Forall_singleton. simpl.
        by destruct (process_batch _ _ _ _). }
    clear items. intros items. induction items as [|item rest IH];
      intros window run Hall Hnone.
    - destruct window as [|x window']; simpl.
      + split.
        * intros n f Hn _. rewrite Forall_forall in Hall. apply Hall.
          apply list_elem_of_lookup. by exists n.
        * rewrite Hnone. destruct (last (flushes run)) as [[win res]|] eqn:Hl;
            [|done].
          apply last_Some in Hl as [l' Hl]. rewrite Hl in Hall.
          apply Forall_app in Hall as [_ Hall].
          rewrite Forall_singleton in Hall. simpl in Hall.
          by destruct res.
      + destruct (Hflush (x :: window') run Hall) as (H1 & H2 & _). by split.
    - cbv zeta. rewrite stream_loop_cons.
      destruct (_ >=? _); [|by apply IH].
      destruct (Hflush (window ++ [item]) run Hall) as (H1 & H2 & H3).
      destruct (stream_error (flush cfg worlds params (window ++ [item]) run))
        eqn:Herr; cbv iota; [split; [exact H1 | by rewrite Herr]|].
      apply IH; [by apply H3 | done]. }
  apply Hgen; [apply Forall_nil_2 | done].
Qed.

(** A flush never yields: [process_batch] raises. *)
Lemma flush_raises cfg worlds params window run :
  ∃ e,
    process_batch cfg (worlds (length (flushes run))) window params = Raise e
    ∧ flush cfg worlds params window run
      = {| yielded := yielded run;
           flushes := flushes run ++ [(window, Raise e)];
           stream_error := Some e |}.
Proof.
  unfold flush.
  pose proof (process_batch_never_returns cfg
                (worlds (length (flushes run))) window params) as Hnever.
  destruct (process_batch _ _ _ _) as [r|e]; [done|]. by exists e.
Qed.

Lemma stream_loop_one_flush cfg worlds params items window run :
  (length window < Z.to_nat (Z.max 1 (batch_size cfg)))%nat →
  let run' := stream_loop cfg worlds params items window run in
  (window ++ items = [] → run' = run)
  ∧ (window ++ items ≠ [] →
     run' = flush cfg worlds params
              (take (Z.to_nat (Z.max 1 (batch_size cfg))) (window ++ items))
              run).
Proof.
  set (B := Z.to_nat (Z.max 1 (batch_size cfg))).
  revert window. induction items as [|item rest IH]; intros window Hwin.
  - cbv zeta. rewrite app_nil_r. simpl.
    destruct window as [|x window']; [by split|]. split; [done|]. intros _.
    by rewrite take_ge by (simpl in *; lia).
  - cbv zeta. rewrite stream_loop_cons. split.
    { intros Hnil. by apply app_eq_nil in Hnil as [_ ?]. }
    intros _.
    destruct (Z.geb_spec (len (window ++ [item])) (batch_size cfg))
      as [Hge|Hlt];
      [unfold len in Hge; rewrite length_app in Hge; simpl in Hge
      |unfold len in Hlt; rewrite length_app in Hlt; simpl in Hlt].
    + assert (take B (window ++ item :: rest) = window ++ [item]) as ->.
      { rewrite (cons_middle item window rest), app_assoc.
        rewrite take_app_length'; [done|].
        rewrite length_app. simpl. lia. }
      destruct (flush_raises cfg worlds params (window ++ [item]) run)
        as (e & _ & ->).
      done.
    + destruct (IH (window ++ [item])) as [_ Hflush].
      { rewrite length_app. simpl. lia. }
      rewrite Hflush by (by destruct window).
      by rewrite <- app_assoc.
Qed.

(** X5. [process_stream] yields nothing. On a source that is not empty it
    calls [process_batch] once, on the first [batch_size] items (on the
    first item when [batch_size] is 1 or less, on all of them when there
    are fewer), and ends with the exception of that call; the items after
    the first window are never read. *)
Theorem process_stream_one_flush cfg worlds items params :
  semaphores_pass cfg →
  let run := process_stream cfg worlds items params in
  yielded run = []
  ∧ (items = [] → flushes run = [] ∧ stream_error run = None)
  ∧ (items ≠ [] →
     ∃ e,
       process_batch cfg (worlds 0%nat)
         (take (Z.to_nat (Z.max 1 (batch_size cfg))) items) params = Raise e
       ∧ flushes run
         = [(take (Z.to_nat (Z.max 1 (batch_size cfg))) items, Raise e)]
       ∧ stream_error run = Some e).
Proof.
  intros _. cbv zeta. unfold process_stream.
  destruct (stream_loop_one_flush cfg worlds params items []
              (mkStreamRun [] [] None)) as [Hnil Hcons]; [simpl; lia|].
  simpl in Hnil, Hcons.
  destruct items as [|item rest].
  - rewrite Hnil by done. split; [done|]. split; [done|]. by intros [].
  - rewrite Hcons by done.
    destruct (flush_raises cfg worlds params
                (take (Z.to_nat (Z.max 1 (batch_size cfg))) (item :: rest))
                (mkStreamRun [] [] None)) as (e & He & ->).
    simpl in He. simpl. split; [done|]. split; [done|]. intros _.
    by exists e.
Qed.

Lemma process_stream_one_flush_witness :
  yielded (process_stream small_config (λ _, calm) three_products None) = []
  ∧ flushes (process_stream small_config (λ _, calm) three_products None)
    = [([product "lamp"; product "chair"],
        Raise (mkExn AttributeError
                 "'coroutine' object has no attribute 'gauge'"))].
Proof.
  destruct (process_stream_one_flush small_config (λ _, calm) three_products
              None) as (Hyielded & _ & Hflush).
  - split; simpl; lia.
  - split; [exact Hyielded|].
    destruct (Hflush ltac:(done)) as (e & He & Hflushes & _).
    rewrite Hflushes. vm_compute in He. injection He as <-. reflexivity.
Defined.

(** X10. With a [batch_size] of 0 or less the first item of the source is
    a window of its own, and the stream ends at it without a value: with
    the [ValueError] of [range] when the size is 0, and, when it is
    negative, with the [AttributeError] of the metrics, no item having
    been processed. *)
Theorem process_stream_nonpositive_batch_size cfg worlds item rest params :
  batch_size cfg <= 0 →
  semaphores_pass cfg →
  let run := process_stream cfg worlds (item :: rest) params in
  let e := if batch_size cfg =? 0
           then mkExn ValueError "range() arg 3 must not be zero"
           else mkExn AttributeError
                  "'coroutine' object has no attribute 'gauge'" in
  yielded run = []
  ∧ flushes run = [([item], Raise e)]
  ∧ stream_error run = Some e.
Proof.
  intros Hle _. cbv zeta. unfold process_stream.
  rewrite stream_loop_cons. change ([] ++ [item]) with [item].
  assert ((len [item] >=? batch_size cfg) = true) as ->.
  { unfold len. simpl. apply Z.geb_le. lia. }
  assert (process_batch cfg (worlds 0%nat) [item] params
          = Raise (if batch_size cfg =? 0
                   then mkExn ValueError "range() arg 3 must not be zero"
                   else mkExn AttributeError
                          "'coroutine' object has no attribute 'gauge'"))
    as Hraise.
  { destruct (Z.eqb_spec (batch_size cfg) 0) as [Hz|Hnz].
    - by apply process_batch_zero_batch_size_eq.
    - apply process_batch_negative_eq. lia. }
  unfold flush. simpl. by rewrite Hraise.
Qed.

Lemma process_stream_nonpositive_batch_size_witness :
  flushes (process_stream (mkBatchConfig (-1) 4 4 false 5000000 true 1000)
             (λ _, calm) three_products None)
  = [([product "lamp"],
      Raise (mkExn AttributeError
               "'coroutine' object has no attribute 'gauge'"))].
Proof.
  apply (process_stream_nonpositive_batch_size
           (mkBatchConfig (-1) 4 4 false 5000000 true 1000) (λ _, calm)
           (product "lamp") [product "chair"; product "desk"] None);
    [simpl; lia | split; simpl; lia].
Defined.

(** *** The GPU path *)



(** *** The CPU path *)



End BatchMoreFacts.

(** ** More on the publishing queue *)

Module QueueMoreFacts.
Import Heapq HeapqSpec HeapqFacts Queue QueueSpec QueueExamples QueueFacts
       QueueMoreSpec QueueMoreExamples.

(** *** The limit on concurrent publications *)

Lemma within_limit_dispatch s :
  Z.of_nat (size (active_tasks s)) < max_concurrent s →
  within_limit (dispatch s).
Proof.
  intros Hlt. unfold within_limit, dispatch.
  destruct (heappop item_lt (queue s)) as [[item queue']|e]; simpl; [|lia].
  rewrite map_size_insert. destruct (active_tasks s !! _); simpl; lia.
Qed.

Lemma within_limit_step s ev :
  within_limit s →
  within_limit (step s ev) ∧ max_concurrent (step s ev) = max_concurrent s.
Proof.
  unfold within_limit.
  intros Hs. destruct ev as [m p|l m p t|k|tid o|dt| | |]; simpl; try done.
  - destruct (loops s !! k) as [pc|]; [|done].
    destruct pc as [| |now|]; simpl; try done.
    + by destruct (_ || _).
    + destruct (queue s) as [|head rest] eqn:Hq; [done|].
      destruct (Z.ltb_spec (Z.of_nat (size (active_tasks s)))
                  (max_concurrent s)); [|done].
      destruct (_ <=? _); [|done]. simpl.
      split; [by apply within_limit_dispatch|].
      unfold dispatch. by destruct (heappop _ _) as [[??]|?].
  - unfold task_done.
    destruct (active_tasks s !! tid) as [item|] eqn:Htid; [|done].
    pose proof (_publish_item_queue item o s) as Hpub.
    assert (max_concurrent (_publish_item item o s).2 = max_concurrent s)
      as Hmax.
    { unfold _publish_item. destruct (_get_publisher _ _); [|done].
      destruct o; [done|]. simpl. by destruct (_ <? _). }
    destruct (_publish_item item o s) as [result s'].
    simpl in Hpub, Hmax. destruct Hpub as (_ & Hact & _). simpl.
    rewrite Hact, Hmax. split; [|done].
    rewrite map_size_delete, Htid. simpl. lia.
  - by destruct (_ && _).
Qed.

(** X11. Whatever happens to a queue, never more publish tasks are alive
    than [max_concurrent]; none at all when [max_concurrent] is 0 or
    less. This also holds when several [_process_queue] tasks run side by
    side. *)
Theorem active_tasks_within_limit max_concurrent clock0 evs :
  Z.of_nat (size (active_tasks (run (init max_concurrent clock0) evs)))
  <= Z.max 0 max_concurrent.
Proof.
  assert (within_limit (run (init max_concurrent clock0) evs) ∧
          Queue.max_concurrent (run (init max_concurrent clock0) evs)
          = max_concurrent) as [H Hmax];
    [|unfold within_limit in H; by rewrite Hmax in H].
  induction evs as [|ev evs IH] using rev_ind.
  - split; [|done]. unfold within_limit. simpl. rewrite map_size_empty. lia.
  - rewrite run_snoc. destruct IH as [IH1 IH2].
    destruct (within_limit_step _ ev IH1) as [H1 H2].
    split; [done | congruence].
Qed.

(** *** The reading of the clock *)

(** X12. The inner loop of [_process_queue] reads the clock once, before
    it starts. A loop task that finds the head of the queue not yet due,
    with room for another task, stays in that inner loop with the reading
    it has: however long it goes on and however much time passes, it hands
    no item to a publish task, the one whose time has come no more than
    another. *)
Theorem stale_clock_never_dispatches s k now head rest evs :
  loops s !! k = Some (InnerTest now) →
  queue s = head :: rest →
  now < scheduled_at head →
  Z.of_nat (size (active_tasks s)) < max_concurrent s →
  Forall (λ ev, passes k ev = true) evs →
  queue (run s evs) = queue s
  ∧ active_tasks (run s evs) = active_tasks s
  ∧ dispatched (run s evs) = dispatched s
  ∧ loops (run s evs) !! k = Some (InnerTest now).
Proof.
  intros Hk Hq Hdue Hroom Hevs. revert s Hk Hq Hroom.
  induction Hevs as [|ev evs Hev _ IH]; intros s Hk Hq Hroom; [done|].
  change (run s (ev :: evs)) with (run (step s ev) evs).
  assert (queue (step s ev) = queue s
          ∧ active_tasks (step s ev) = active_tasks s
          ∧ dispatched (step s ev) = dispatched s
          ∧ max_concurrent (step s ev) = max_concurrent s
          ∧ loops (step s ev) !! k = Some (InnerTest now))
    as (H1 & H2 & H3 & H4 & H5).
  { destruct ev as [m p|l m p t|j|tid o|dt| | |]; try done.
    simpl in Hev. apply bool_decide_eq_true in Hev as ->.
    simpl. rewrite Hk. simpl. rewrite Hq.
    destruct (Z.ltb_spec (Z.of_nat (size (active_tasks s)))
                (max_concurrent s)); [|lia].
    destruct (Z.leb_spec (scheduled_at head) now); [lia|]. simpl.
    do 4 (split; [done|]).
    apply list_lookup_insert_eq. by eapply lookup_lt_Some. }
  destruct (IH (step s ev)) as (H6 & H7 & H8 & H9);
    [done | congruence | congruence |].
  split; [congruence|]. split; [congruence|]. split; [congruence | done].
Qed.

Lemma stale_clock_never_dispatches_witness :
  let s := run (init 5 0) one_scheduled in
  clock (run s two_seconds_later) = 2000000
  ∧ queue s = [{| oid := 0; priority := 2; scheduled_at := 1000000;
                  listing := lamp; marketplace := "ebay"; retries := 0 |}]
  ∧ dispatched (run s two_seconds_later) = [].
Proof.
  cbv zeta. split; [reflexivity|]. split; [reflexivity|].
  destruct (stale_clock_never_dispatches (run (init 5 0) one_scheduled)
              0 0
              {| oid := 0; priority := 2; scheduled_at := 1000000;
                 listing := lamp; marketplace := "ebay"; retries := 0 |}
              [] two_seconds_later) as (_ & _ & -> & _).
  - reflexivity.
  - reflexivity.
  - simpl. lia.
  - vm_compute. reflexivity.
  - repeat constructor.
  - reflexivity.
Defined.

(** *** Loop tasks *)

(** X13. [add_to_queue] looks at [_running], which a [_process_queue]
    task sets only once its body starts: every listing added while no such
    task has had a turn starts one more of them. *)
Theorem adds_start_a_loop_each s evs :
  _running s = false →
  Forall (λ ev, is_add ev = true) evs →
  loops (run s evs) = loops s ++ replicate (length evs) Created
  ∧ _running (run s evs) = false.
Proof.
  intros Hrun Hevs. revert s Hrun.
  induction Hevs as [|ev evs Hev _ IH]; intros s Hrun.
  - simpl. by rewrite app_nil_r.
  - change (run s (ev :: evs)) with (run (step s ev) evs).
    destruct ev as [m p|l m p t|j|tid o|dt| | |]; try done.
    destruct (IH (step s (EvAdd l m p t))) as [H1 H2]; [done|].
    rewrite H1, H2. split; [|done].
    simpl. rewrite Hrun. by rewrite <- app_assoc.
Qed.

Lemma adds_start_a_loop_each_witness :
  loops (run (init 5 0) [EvAdd chair "ebay" NORMAL None;
                         EvAdd lamp "ebay" URGENT None])
  = [Created; Created].
Proof.
  by destruct (adds_start_a_loop_each (init 5 0)
                 [EvAdd chair "ebay" NORMAL None;
                  EvAdd lamp "ebay" URGENT None]) as [-> _];
    [|repeat constructor|].
Defined.

(** *** Pause *)

Lemma dispatch_set_running b s :
  dispatch (set_running b s) = set_running b (dispatch s).
Proof.
  unfold dispatch. simpl. by destruct (heappop _ _) as [[??]|?].
Qed.

Lemma loop_step_set_running b pc s :
  ∃ b', loop_step pc (set_running b s)
        = (set_running b' (loop_step pc s).1, (loop_step pc s).2).
Proof.
  destruct pc as [| |now|]; simpl.
  - by exists true.
  - destruct (_ || _); [by exists b | by exists false].
  - destruct (queue s) as [|head rest]; [by exists b|].
    destruct (_ <? _); [|by exists b].
    destruct (_ <=? _); [|by exists b].
    exists b. simpl. by rewrite dispatch_set_running.
  - by exists b.
Qed.

Lemma task_done_set_running b tid outcome s :
  task_done tid outcome (set_running b s)
  = set_running b (task_done tid outcome s).
Proof.
  unfold task_done. simpl.
  destruct (active_tasks s !! tid) as [item|]; [|done].
  unfold _publish_item, _get_publisher. simpl.
  destruct (_publishers s !! marketplace item); [|done].
  destruct outcome; [done|].
  by destruct (_ <? _).
Qed.

Lemma step_set_running b s ev :
  reads_running ev = false →
  ∃ b', step (set_running b s) ev = set_running b' (step s ev).
Proof.
  intros Hev. destruct ev as [m p|l m p t|k|tid o|dt| | |]; try done; simpl.
  - by exists b.
  - destruct (loops s !! k) as [pc|]; [|by exists b].
    destruct (loop_step_set_running b pc s) as [b' ->].
    destruct (loop_step pc s) as [s' pc']. simpl. by exists b'.
  - exists b. apply task_done_set_running.
  - by exists b.
  - by exists b.
  - by exists false.
Qed.

(** X14. [pause] only clears [_running], which the loop of
    [_process_queue] never reads: as long as nothing is added and
    [resume] is not called, a paused queue goes on exactly as one that was
    not paused, dispatching the same items at the same moments; the two
    differ in the flag at most. *)
Theorem pause_stops_nothing s evs :
  Forall (λ ev, reads_running ev = false) evs →
  ∃ b, run (step s EvPause) evs = set_running b (run s evs).
Proof.
  intros Hevs. simpl. generalize false. revert s.
  induction Hevs as [|ev evs Hev _ IH]; intros s b; [by exists b|].
  change (run ?s (ev :: evs)) with (run (step s ev) evs).
  destruct (step_set_running b s ev Hev) as [b' ->]. apply IH.
Qed.

Lemma pause_stops_nothing_witness :
  dispatched (run (step (run (init 5 0) one_ready) EvPause) [EvLoop 0])
  = [(lamp_item 0 0, 0)].
Proof.
  destruct (pause_stops_nothing (run (init 5 0) one_ready) [EvLoop 0])
    as [b ->].
  - repeat constructor.
  - vm_compute. reflexivity.
Defined.

(** *** The attempts on one item *)

Lemma attempts_snoc n s s' d t :
  dispatched s' = dispatched s ++ [(d, t)] →
  attempts n s' = attempts n s ++ (if decide (oid d = n) then [d] else []).
Proof.
  intros Hlog. unfold attempts. rewrite Hlog, fmap_app, filter_app. simpl.
  reflexivity.
Qed.

Lemma inv_ids_init max_concurrent clock0 : inv_ids (init max_concurrent clock0).
Proof.
  split; simpl; try (intros; by rewrite ?lookup_empty in *).
  - constructor.
  - intros x Hx. by apply elem_of_nil in Hx.
  - intros d Hd. by apply elem_of_nil in Hd.
  - intros n. constructor.
  - intros x d Hx. by apply elem_of_nil in Hx.
Qed.

(** Only the queue, the tasks, the identities handed out and the record
    of dispatches matter. *)
Lemma inv_ids_ext s s' :
  queue s' = queue s → active_tasks s' = active_tasks s →
  next_id s' = next_id s → dispatched s' = dispatched s →
  inv_ids s → inv_ids s'.
Proof.
  intros Hq Ha Hn Hd [H1 H2 H3 H4 H5 H6 H7 H8 H9].
  split; unfold attempts; rewrite ?Hq, ?Ha, ?Hn, ?Hd; done.
Qed.

Lemma inv_ids_push s s' item :
  queue s' = heappush item_lt (queue s) item →
  dispatched s' = dispatched s →
  (next_id s <= next_id s')%nat →
  (oid item < next_id s')%nat →
  (∀ x, x ∈ queue s → oid x ≠ oid item) →
  (∀ tid y, active_tasks s' !! tid = Some y →
            active_tasks s !! tid = Some y ∧ oid y ≠ oid item) →
  (∀ d, d ∈ fst <$> dispatched s → oid d = oid item →
        retries d < retries item) →
  inv_ids s → inv_ids s'.
Proof.
  intros Hq Hd Hn Hfresh Hnew Hact Hlog [H1 H2 H3 H4 H5 H6 H7 H8 H9].
  assert (∀ x, x ∈ queue s' ↔ x = item ∨ x ∈ queue s) as Hin.
  { intros x. rewrite Hq. apply heappush_elem. }
  split; unfold attempts; rewrite ?Hd.
  - rewrite Hq, (heappush_perm item_lt (queue s) item). simpl.
    apply NoDup_cons. split; [|done].
    intros Hx. apply list_elem_of_fmap in Hx as (x & Hox & Hx).
    by apply (Hnew x).
  - intros tid y x Hy Hx. apply Hact in Hy as [Hy Hne].
    apply Hin in Hx as [->|Hx]; [congruence | by eapply H2].
  - intros tid1 tid2 i1 i2 Hi1 Hi2.
    apply Hact in Hi1 as [Hi1 _], Hi2 as [Hi2 _]. by eapply H3.
  - intros x Hx. apply Hin in Hx as [->|Hx]; [done|].
    apply H4 in Hx. lia.
  - intros tid y Hy. apply Hact in Hy as [Hy _]. apply H5 in Hy. lia.
  - intros d Hd'. apply H6 in Hd'. lia.
  - done.
  - intros x d Hx Hd' Hoid. apply Hin in Hx as [->|Hx];
      [by apply Hlog | by apply H8].
  - intros tid y d Hy. apply Hact in Hy as [Hy _]. by eapply H9.
Qed.

Lemma inv_ids_add l m p t s : inv_ids s → inv_ids (add_to_queue l m p t s).
Proof.
  intros Hinv. eapply inv_ids_push; [simpl; reflexivity | ..| exact Hinv];
    simpl; try done; try lia.
  - intros x Hx. apply (ids_fresh_queue s Hinv) in Hx. lia.
  - intros tid y Hy. split; [done|].
    apply (ids_fresh_active s Hinv) in Hy. lia.
  - intros d Hd Hoid. apply (ids_fresh_log s Hinv) in Hd. lia.
Qed.

Lemma inv_ids_dispatch s head rest :
  inv_ids s → queue s = head :: rest → inv_ids (dispatch s).
Proof.
  intros [H1 H2 H3 H4 H5 H6 H7 H8 H9] Hq.
  destruct (dispatch_head s head rest Hq)
    as (queue' & Hpop & Hperm & Hq' & Hact & Hlog & _ & _).
  assert (next_id (dispatch s) = next_id s) as Hn.
  { unfold dispatch. by rewrite Hpop. }
  assert (head ∈ queue s) as Hhead by (rewrite Hq; apply list_elem_of_here).
  assert (∀ x, x ∈ queue' → x ∈ queue s) as Hsub.
  { intros x Hx. rewrite Hperm. by apply list_elem_of_further. }
  assert (∀ x, x ∈ queue' → oid x ≠ oid head) as Hother.
  { rewrite Hperm in H1. simpl in H1. apply NoDup_cons in H1 as [Hnin _].
    intros x Hx Hoid. apply Hnin. rewrite <- Hoid.
    apply list_elem_of_fmap. by exists x. }
  assert (∀ d, d ∈ fst <$> dispatched (dispatch s) ↔
               d ∈ fst <$> dispatched s ∨ d = head) as Hin.
  { intros d. rewrite Hlog, fmap_app, elem_of_app. simpl.
    by rewrite list_elem_of_singleton. }
  split; rewrite ?Hq', ?Hact, ?Hn.
  - rewrite Hperm in H1. simpl in H1. by apply NoDup_cons in H1 as [_ H1].
  - intros tid y x Hy Hx.
    apply lookup_insert_Some in Hy as [[_ <-]|[_ Hy]];
      [by apply Hother | eapply H2; [exact Hy | by apply Hsub]].
  - intros tid1 tid2 i1 i2 Hi1 Hi2 Hoid.
    apply lookup_insert_Some in Hi1 as [[<- <-]|[Hne1 Hi1]];
      apply lookup_insert_Some in Hi2 as [[<- <-]|[Hne2 Hi2]].
    + done.
    + exfalso. by eapply (H2 tid2 i2 head).
    + exfalso. by eapply (H2 tid1 i1 head).
    + by eapply H3.
  - intros x Hx. by apply H4, Hsub.
  - intros tid y Hy.
    apply lookup_insert_Some in Hy as [[_ <-]|[_ Hy]];
      [by apply H4 | by eapply H5].
  - intros d Hd. apply Hin in Hd as [Hd| ->]; [by apply H6 | by apply H4].
  - intros n. rewrite (attempts_snoc n s (dispatch s) head (clock s) Hlog).
    apply StronglySorted_app_2; [|done|].
    + intros a b Ha Hb. destruct (decide (oid head = n)) as [Hn'|];
        [|by apply elem_of_nil in Hb].
      apply list_elem_of_singleton in Hb as ->.
      unfold attempts in Ha. apply list_elem_of_filter in Ha as [Hoa Ha].
      apply H8; [done | done | congruence].
    + destruct (decide (oid head = n)); repeat constructor.
  - intros x d Hx Hd Hoid. apply Hin in Hd as [Hd| ->].
    + apply H8; [by apply Hsub | done | done].
    + exfalso. by apply (Hother x).
  - intros tid y d Hy Hd Hoid.
    apply lookup_insert_Some in Hy as [[_ <-]|[_ Hy]];
      apply Hin in Hd as [Hd| ->].
    + apply Z.lt_le_incl. by apply H8.
    + done.
    + by eapply H9.
    + exfalso. by eapply (H2 tid y head).
Qed.

Lemma inv_ids_task_done tid outcome s :
  inv_ids s → inv_ids (task_done tid outcome s).
Proof.
  intros Hinv. unfold task_done.
  destruct (active_tasks s !! tid) as [item|] eqn:Htid; [|done].
  pose proof (_publish_item_queue item outcome s) as Hpub.
  assert (next_id (_publish_item item outcome s).2 = next_id s) as Hn.
  { unfold _publish_item. destruct (_get_publisher _ _); [|done].
    destruct outcome; [done|]. simpl. by destruct (_ <? _). }
  destruct (_publish_item item outcome s) as [result s'].
  simpl in Hpub, Hn. destruct Hpub as (Hq & Hact & _ & _ & Hlog & _).
  destruct Hq as [Hq|(e & publisher & _ & _ & _ & Hq)].
  - destruct Hinv as [H1 H2 H3 H4 H5 H6 H7 H8 H9].
    split; unfold attempts; simpl; rewrite ?Hq, ?Hact, ?Hn, ?Hlog; try done.
    + intros tid' y x Hy. apply lookup_delete_Some in Hy as [_ Hy].
      by eapply H2.
    + intros tid1 tid2 i1 i2 Hi1 Hi2.
      apply lookup_delete_Some in Hi1 as [_ Hi1], Hi2 as [_ Hi2].
      by eapply H3.
    + intros tid' y Hy. apply lookup_delete_Some in Hy as [_ Hy].
      by eapply H5.
    + intros tid' y d Hy. apply lookup_delete_Some in Hy as [_ Hy].
      by eapply H9.
  - eapply inv_ids_push; [exact Hq | ..| exact Hinv]; simpl;
      rewrite ?Hn, ?Hlog, ?Hact; try done.
    + by eapply (ids_fresh_active s Hinv).
    + intros x Hx. by eapply (ids_active s Hinv).
    + intros tid' y Hy. apply lookup_delete_Some in Hy as [Hne Hy].
      split; [done|]. intros Hoid. apply Hne.
      by eapply (ids_active_inj s Hinv).
    + intros d Hd Hoid.
      pose proof (log_active s Hinv tid item d Htid Hd Hoid). lia.
Qed.

Lemma inv_ids_step s ev : inv_ids s → inv_ids (step s ev).
Proof.
  intros Hinv. destruct ev as [m p|l m p t|k|tid o|dt| | |]; simpl.
  - by apply (inv_ids_ext s).
  - by apply inv_ids_add.
  - destruct (loops s !! k) as [pc|] eqn:Hk; [|done].
    assert (inv_ids (loop_step pc s).1) as Hstep.
    { destruct pc as [| |now|]; simpl; try done.
      - by apply (inv_ids_ext s).
      - destruct (_ || _); [done | by apply (inv_ids_ext s)].
      - destruct (queue s) as [|head rest] eqn:Hq; [done|].
        destruct (_ <? _); [|done]. destruct (_ <=? _); [|done].
        by eapply inv_ids_dispatch. }
    destruct (loop_step pc s) as [s' pc']. by apply (inv_ids_ext s').
  - by apply inv_ids_task_done.
  - by apply (inv_ids_ext s).
  - destruct Hinv as [H1 H2 H3 H4 H5 H6 H7 H8 H9].
    split; simpl; try done.
    + constructor.
    + intros tid y x _ Hx. by apply elem_of_nil in Hx.
    + intros x Hx. by apply elem_of_nil in Hx.
    + intros x d Hx. by apply elem_of_nil in Hx.
  - by apply (inv_ids_ext s).
  - destruct (_ && _); [|done]. by apply (inv_ids_ext s).
Qed.

Lemma inv_ids_run s evs : inv_ids s → inv_ids (run s evs).
Proof.
  intros Hinv. induction evs as [|ev evs IH] using rev_ind; [done|].
  rewrite run_snoc. by apply inv_ids_step.
Qed.

(** A list of integers between [lo] and [hi] that grows at each place has
    at most [hi - lo + 1] of them. *)
Lemma growing_length {A} (f : A → Z) (l : list A) (lo hi : Z) :
  StronglySorted (λ a b, f a < f b) l →
  Forall (λ a, lo <= f a <= hi) l →
  Z.of_nat (length l) <= Z.max 0 (hi - lo + 1).
Proof.
  intros Hs. revert lo. induction Hs as [|a l Hs IH Ha]; intros lo Hall.
  - simpl. lia.
  - apply Forall_cons in Hall as [Hlo Hall].
    assert (Forall (λ b, lo + 1 <= f b <= hi) l) as Hall'.
    { rewrite Forall_forall in Ha, Hall. apply Forall_forall.
      intros b Hb. specialize (Ha b Hb). specialize (Hall b Hb). lia. }
    specialize (IH (lo + 1) Hall'). simpl length. lia.
Qed.

(** X15. Every time an item is handed to a publish task again it carries
    more retries than the time before; with the bound of 3 on the retries,
    no listing is ever attempted more than four times, along any sequence
    of events. *)
Theorem at_most_four_attempts max_concurrent clock0 evs n :
  let s := run (init max_concurrent clock0) evs in
  StronglySorted more_retries (attempts n s)
  ∧ (length (attempts n s) <= 4)%nat.
Proof.
  cbv zeta.
  pose proof (inv_ids_run _ evs (inv_ids_init max_concurrent clock0)) as Hids.
  pose proof (inv_run _ evs (inv_init max_concurrent clock0)) as Hinv.
  pose proof (log_sorted _ Hids n) as Hsorted.
  split; [done|].
  pose proof (growing_length retries _ 0 3 Hsorted) as Hlen.
  assert (Z.of_nat (length (attempts n (run (init max_concurrent clock0) evs)))
          <= Z.max 0 (3 - 0 + 1)); [|lia].
  apply Hlen. apply Forall_forall. intros d Hd.
  unfold attempts in Hd. apply list_elem_of_filter in Hd as [_ Hd].
  apply list_elem_of_fmap in Hd as ([d' t] & -> & Hd).
  by apply (inv_dispatched _ Hinv d' t).
Qed.

End QueueMoreFacts.

(** ** The container *)

Module ContainerFacts.
Import Container ContainerSpec ContainerExamples.

Lemma run_ops_snoc call c ops op :
  run_ops call c (ops ++ [op]) = exec call (run_ops call c ops) op.
Proof. unfold run_ops. by rewrite fold_left_app. Qed.

Lemma exec_unregistered call c op name :
  registers name op = false →
  _factories c !! name = None → _singletons c !! name = None →
  _factories (exec call c op) !! name = None
  ∧ _singletons (exec call c op) !! name = None.
Proof.
  intros Hop Hf Hs. destruct op as [name' f sgl|name'|name']; simpl.
  - simpl in Hop. apply bool_decide_eq_false in Hop.
    rewrite lookup_insert_ne by done. split; [done|].
    destruct sgl; [by rewrite lookup_insert_ne|done].
  - unfold resolve. destruct (created c name'); [done|].
    destruct (_factories c !! name') as [f|]; [|done].
    destruct (call f _); [|done].
    destruct (bool_decide_reflect (is_Some (_singletons c !! name')))
      as [Hsome|]; [|done].
    simpl. split; [done|]. rewrite lookup_insert_ne; [done|].
    intros ->. rewrite Hs in Hsome. by destruct Hsome.
  - unfold get_service. destruct (created c name'); [done|].
    by destruct (_factories c !! name').
Qed.

(** X16. A name under which nothing was ever registered cannot be
    resolved, whatever else was registered and resolved before: both
    [resolve] and [get_service] raise [ValueError], no factory is called
    and the container stays as it is. *)
Theorem unregistered_service_raises call ops name :
  Forall (λ op, registers name op = false) ops →
  let c := run_ops call new ops in
  resolve call name c = (Raise (not_registered name), c)
  ∧ get_service call name c = (Raise (not_registered name), c).
Proof.
  intros Hops. cbv zeta.
  assert (_factories (run_ops call new ops) !! name = None
          ∧ _singletons (run_ops call new ops) !! name = None) as [Hf Hs].
  { induction ops as [|op ops IH] using rev_ind; [done|].
    apply Forall_app in Hops as [Hops Hop].
    rewrite Forall_singleton in Hop. rewrite run_ops_snoc.
    destruct (IH Hops) as [Hf Hs]. by apply exec_unregistered. }
  unfold resolve, get_service, created. rewrite Hs, Hf. by split.
Qed.

Lemma unregistered_service_raises_witness :
  (resolve fresh_objects "config" (run_ops fresh_objects new metrics_resolved)).1
  = Raise (mkExn ValueError "Service 'config' not registered").
Proof.
  destruct (unregistered_service_raises fresh_objects metrics_resolved
              "config") as [-> _].
  - repeat constructor.
  - reflexivity.
Defined.

Lemma exec_created call c op name instance :
  registers name op = false →
  created c name = Some instance →
  created (exec call c op) name = Some instance.
Proof.
  intros Hop Hc. destruct op as [name' f sgl|name'|name']; simpl.
  - simpl in Hop. apply bool_decide_eq_false in Hop.
    unfold created in *. simpl.
    destruct sgl; [by rewrite lookup_insert_ne|done].
  - unfold resolve. destruct (created c name') as [i|] eqn:Hc'; [done|].
    destruct (_factories c !! name') as [f|]; [|done].
    destruct (call f _); [|done].
    destruct (bool_decide (is_Some (_singletons c !! name'))); [|done].
    unfold created in *. simpl. rewrite lookup_insert_ne; [done|].
    intros ->. by rewrite Hc in Hc'.
  - unfold get_service. destruct (created c name'); [done|].
    by destruct (_factories c !! name').
Qed.

(** X17. Once [resolve] has created the object of a service registered as
    a singleton, every later [resolve] or [get_service] of that name gives
    the same object and calls no factory, whatever is resolved or
    registered under other names in between. *)
Theorem singleton_is_created_once call c name instance c' ops :
  is_Some (_singletons c !! name) →
  resolve call name c = (Return (Some instance), c') →
  Forall (λ op, registers name op = false) ops →
  let c'' := run_ops call c' ops in
  resolve call name c'' = (Return (Some instance), c'')
  ∧ get_service call name c'' = (Return (Some instance), c'').
Proof.
  intros Hsingleton Hres Hops. cbv zeta.
  assert (created c' name = Some instance) as Hc'.
  { unfold resolve in Hres.
    destruct (created c name) as [i|] eqn:Hc; [by injection Hres as <- <-|].
    destruct (_factories c !! name) as [f|]; [|done].
    destruct (call f _) as [i|e]; [|done].
    rewrite bool_decide_eq_true_2 in Hres by done.
    injection Hres as -> <-. unfold created. simpl.
    by rewrite lookup_insert_eq. }
  assert (created (run_ops call c' ops) name = Some instance) as Hc''.
  { induction ops as [|op ops IH] using rev_ind; [done|].
    apply Forall_app in Hops as [Hops Hop].
    rewrite Forall_singleton in Hop. rewrite run_ops_snoc.
    apply exec_created; [done|]. by apply IH. }
  unfold resolve, get_service. by rewrite Hc''.
Qed.

Lemma singleton_is_created_once_witness :
  (resolve fresh_objects "metrics"
     (run_ops fresh_objects (run_ops fresh_objects new metrics_resolved)
          [Register "config" 8%nat true; Resolve "config"])).1
  = Return (Some 0%nat).
Proof.
  destruct (singleton_is_created_once fresh_objects
              (register "metrics" 7%nat true new) "metrics" 0%nat
              (run_ops fresh_objects new metrics_resolved)
              [Register "config" 8%nat true; Resolve "config"]) as [-> _].
  - by eexists.
  - reflexivity.
  - repeat constructor.
  - reflexivity.
Defined.

(** X18. Registering again under a name whose object exists: with
    [singleton=False] the new factory is stored but never used, [resolve]
    keeps giving the object of the old one; with [singleton=True] the
    object is forgotten and the next [resolve] calls the new factory. *)
Theorem register_again call c name instance factory :
  created c name = Some instance →
  resolve call name (register name factory false c)
  = (Return (Some instance), register name factory false c)
  ∧ (resolve call name (register name factory true c)).1
    = call factory (length (called c))
  ∧ called (resolve call name (register name factory true c)).2
    = called c ++ [factory].
Proof.
  intros Hc. split; [|split].
  - unfold resolve. replace (created (register name factory false c) name)
      with (Some instance); done.
  - unfold resolve, created. simpl. rewrite !lookup_insert_eq.
    by destruct (call factory _).
  - unfold resolve, created. simpl. rewrite !lookup_insert_eq.
    destruct (call factory _); [|done].
    by rewrite bool_decide_eq_true_2 by by eexists.
Qed.

Lemma register_again_witness :
  (resolve fresh_objects "metrics"
     (register "metrics" 9%nat false
        (run_ops fresh_objects new metrics_resolved))).1
  = Return (Some 0%nat).
Proof.
  destruct (register_again fresh_objects
              (run_ops fresh_objects new metrics_resolved) "metrics" 0%nat 9%nat)
    as [-> _]; reflexivity.
Defined.

End ContainerFacts.
